(** * Connor: deduplication of barcoded paired-end reads

    A shallow embedding of [connor/connor.py] and the properties of its
    streaming family assembler, tag ranker and tag partitioner.

    Conventions of the embedding
    - a [pysam] aligned segment is a record of the fields the program reads;
    - [dict]s that are only indexed by key ([pairing_dict], [family_dict],
      the coordinate manifest) are [gmap]s, [set]s are [gset]s;
    - [dict]s that are iterated ([tag_count.items()], [tag_aligns.values()])
      are association lists in insertion order;
    - a [for] loop over an iterable is a left fold over the list of the
      items in iteration order;
    - the generator [_build_coordinate_families] is a step function on its
      local state, run over the input; every step reports what it did;
    - two reads are equal when their fields are (the comparison [pysam]
      gives aligned segments), so [PairedAlignment.__eq__] is structural
      equality and a Python [set] of pairs is a [gset];
    - the only exception the modelled code can raise is the [KeyError] of
      [set.remove] in the second pass; fields are never [None]. *)

From Stdlib Require Import ZArith String List Lia.
From Stdlib Require Import Sorting.Sorted Sorting.Permutation.
From Stdlib Require Import Structures.OrderedTypeEx.
From stdpp Require Import gmap strings list fin_maps sorting.

Local Open Scope Z_scope.

(** ** Data model *)

(** The fields of [pysam.AlignedSegment] that the program touches. *)
Record AlignedSegment := mkAlignedSegment {
  query_name : string;
  reference_name : string;
  reference_start : Z;
  next_reference_start : Z;
  query_sequence : string
}.

#[global] Instance AlignedSegment_eq_dec : EqDecision AlignedSegment.
Proof. solve_decision. Defined.

#[global] Instance AlignedSegment_countable : Countable AlignedSegment.
Proof.
  refine (inj_countable'
    (fun a => (query_name a, reference_name a, reference_start a,
               next_reference_start a, query_sequence a))
    (fun t => match t with
              | (n, c, p1, p2, s) => mkAlignedSegment n c p1 p2 s
              end) _).
  by intros [].
Defined.

(** A coordinate key: [(chrom, smaller position, larger position)]. *)
Abbreviation CoordinateKey := (string * Z * Z)%type.

Module LightweightAlignment.
Record t := mk { name : string; key : CoordinateKey }.

Definition __init__ (aligned_segment : AlignedSegment) : t :=
  let chrom := reference_name aligned_segment in
  let pos1 := reference_start aligned_segment in
  let pos2 := next_reference_start aligned_segment in
  if pos1 <? pos2
  then mk (query_name aligned_segment) (chrom, pos1, pos2)
  else mk (query_name aligned_segment) (chrom, pos2, pos1).
End LightweightAlignment.

Record PairedAlignment := mkPairedAlignment {
  left_alignment : AlignedSegment;
  right_alignment : AlignedSegment
}.

#[global] Instance PairedAlignment_eq_dec : EqDecision PairedAlignment.
Proof. solve_decision. Defined.

#[global] Instance PairedAlignment_countable : Countable PairedAlignment.
Proof.
  refine (inj_countable'
    (fun p => (left_alignment p, right_alignment p))
    (fun t => mkPairedAlignment t.1 t.2) _).
  by intros [].
Defined.

(** A barcode tag: the three-character prefixes of the two mates. *)
Abbreviation Tag := (string * string)%type.

(** ** Insertion-ordered dictionaries with a default ([defaultdict]) *)

Section defaultdict.
Context {K V : Type} `{EqDecision K}.

(** [d[k] = f(d[k])] on a [defaultdict] whose factory returns [dflt]:
    an existing entry is changed in place, a new one goes last. *)
Fixpoint dd_update (f : V -> V) (dflt : V) (k : K) (d : list (K * V))
  : list (K * V) :=
  match d with
  | [] => [(k, f dflt)]
  | (k', v) :: d' =>
      if decide (k' = k) then (k', f v) :: d'
      else (k', v) :: dd_update f dflt k d'
  end.

Fixpoint dd_get (k : K) (d : list (K * V)) : option V :=
  match d with
  | [] => None
  | (k', v) :: d' => if decide (k' = k) then Some v else dd_get k d'
  end.

Definition dd_keys (d : list (K * V)) : list K := map fst d.
Definition dd_values (d : list (K * V)) : list V := map snd d.
End defaultdict.

(** ** Tag ranking: [_rank_tags] *)

(** [query_sequence[0:3]] of both mates. *)
Definition left_tag_id (paired_align : PairedAlignment) : string :=
  substring 0 3 (query_sequence (left_alignment paired_align)).
Definition right_tag_id (paired_align : PairedAlignment) : string :=
  substring 0 3 (query_sequence (right_alignment paired_align)).
Definition tag_of (paired_align : PairedAlignment) : Tag :=
  (left_tag_id paired_align, right_tag_id paired_align).

(** The counting loop: [tag_count[(left, right)] += 1]. *)
Definition count_tags (tagged_paired_aligns : list PairedAlignment)
  : list (Tag * Z) :=
  fold_left (fun tag_count paired_align =>
               dd_update (fun c => c + 1) 0 (tag_of paired_align) tag_count)
            tagged_paired_aligns [].

(** Python's [<] on [str] (code-point order) and on tuples. *)
Definition str_lt (a b : string) : Prop := String.compare a b = Lt.
Definition tag_lt (t1 t2 : Tag) : Prop :=
  str_lt t1.1 t2.1 \/ (t1.1 = t2.1 /\ str_lt t1.2 t2.2).

Definition tag_ltb (t1 t2 : Tag) : bool :=
  if decide (t1.1 = t2.1) then String.ltb t1.2 t2.2 else String.ltb t1.1 t2.1.

(** The sort key [lambda x: (-1 * x[1], x[0])] and [<] on such keys. *)
Definition sort_key (x : Tag * Z) : Z * Tag := (-1 * x.2, x.1).
Definition key_ltb (k1 k2 : Z * Tag) : bool :=
  if decide (k1.1 = k2.1) then tag_ltb k1.2 k2.2 else k1.1 <? k2.1.

Definition key_lt (k1 k2 : Z * Tag) : Prop :=
  k1.1 < k2.1 \/ (k1.1 = k2.1 /\ tag_lt k1.2 k2.2).

(** [x] may stay in front of [y]: the key of [y] is not below that of [x]. *)
Definition key_le (x y : Tag * Z) : Prop :=
  ~ key_lt (sort_key y) (sort_key x).

(** [sorted(items, key=...)]: a stable sort that only uses [<] on keys. *)
Fixpoint sorted_insert (x : Tag * Z) (l : list (Tag * Z)) : list (Tag * Z) :=
  match l with
  | [] => [x]
  | y :: l' =>
      if key_ltb (sort_key y) (sort_key x) then y :: sorted_insert x l'
      else x :: y :: l'
  end.
Definition sorted (items : list (Tag * Z)) : list (Tag * Z) :=
  foldr sorted_insert [] items.

Definition _rank_tags (tagged_paired_aligns : list PairedAlignment)
  : list Tag :=
  let tag_count := count_tags tagged_paired_aligns in
  let tags_by_count := sorted tag_count in
  map fst tags_by_count.

(** How often a tag is observed in a group, and the order the ranking is
    specified to have: more frequent first, equally frequent tags in
    lexicographic order of [(left, right)]. *)
Definition tag_occurrences (t : Tag) (group : list PairedAlignment) : nat :=
  length (filter (fun paired_align => tag_of paired_align = t) group).
Definition ranked_before (group : list PairedAlignment) (t1 t2 : Tag) : Prop :=
  (tag_occurrences t2 group < tag_occurrences t1 group)%nat
  \/ (tag_occurrences t1 group = tag_occurrences t2 group /\ tag_lt t1 t2).

(** ** Tag partitioning: [_build_tag_families] *)

Definition tag_matches (paired_align : PairedAlignment) (best_tag : Tag)
  : bool :=
  bool_decide (left_tag_id paired_align = best_tag.1)
  || bool_decide (right_tag_id paired_align = best_tag.2).

(** The inner loop [for best_tag in ranked_tags: if ...: add; break]. *)
Fixpoint assign_pair (paired_align : PairedAlignment) (ranked_tags : list Tag)
    (tag_aligns : list (Tag * gset PairedAlignment))
  : list (Tag * gset PairedAlignment) :=
  match ranked_tags with
  | [] => tag_aligns
  | best_tag :: rest =>
      if tag_matches paired_align best_tag
      then dd_update (fun s => s ∪ {[paired_align]}) ∅ best_tag tag_aligns
      else assign_pair paired_align rest tag_aligns
  end.

(** The dictionary [tag_aligns] when the outer loop is over. *)
Definition build_tag_aligns (tagged_paired_aligns : list PairedAlignment)
    (ranked_tags : list Tag) : list (Tag * gset PairedAlignment) :=
  fold_left (fun tag_aligns paired_align =>
               assign_pair paired_align ranked_tags tag_aligns)
            tagged_paired_aligns [].

Definition _build_tag_families (tagged_paired_aligns : list PairedAlignment)
    (ranked_tags : list Tag) : list (gset PairedAlignment) :=
  dd_values (build_tag_aligns tagged_paired_aligns ranked_tags).

(** The cluster of a tag in [tag_aligns] (empty when the tag has none). *)
Definition tag_family (tag_aligns : list (Tag * gset PairedAlignment))
    (t : Tag) : gset PairedAlignment :=
  default ∅ (dd_get t tag_aligns).

(** The partitioning rule as the specification words it: a single matching
    mate is enough, and the first matching tag in rank order wins. *)
Definition matches_tag (paired_align : PairedAlignment) (t : Tag) : Prop :=
  left_tag_id paired_align = t.1 \/ right_tag_id paired_align = t.2.
Definition first_matching_tag (paired_align : PairedAlignment)
    (ranked_tags : list Tag) (t : Tag) : Prop :=
  exists before after,
    ranked_tags = before ++ t :: after
    /\ Forall (fun t' => ~ matches_tag paired_align t') before
    /\ matches_tag paired_align t.

(** ** Consensus and the per-group body of [main] *)

(** [alignment_family.pop()]: removes and returns some member of the set,
    [KeyError] ([None]) on an empty set.  Which member is unspecified in
    Python; the embedding takes the first of [elements]. *)
Definition _build_consensus_pair (alignment_family : gset PairedAlignment)
  : option PairedAlignment :=
  head (elements alignment_family).

(** The body of the [for coord_family in ...] loop of [main]: the list of
    representative pairs chosen for one coordinate family ([None] when a
    [pop] fails). *)
Definition consensus_pairs (coord_family : gset PairedAlignment)
  : option (list PairedAlignment) :=
  let aligns := elements coord_family in
  let ranked_tags := _rank_tags aligns in
  mapM _build_consensus_pair (_build_tag_families aligns ranked_tags).

(** The records written to the output for one coordinate family. *)
Definition written (read_pairs : list PairedAlignment) : list AlignedSegment :=
  read_pairs ≫= (fun read_pair =>
    [left_alignment read_pair; right_alignment read_pair]).

(** ** First pass: [_build_coordinate_read_name_manifest] *)

Definition _build_coordinate_read_name_manifest
    (lw_aligns : list LightweightAlignment.t)
  : gmap CoordinateKey (gset string) :=
  fold_left (fun af_dict lwa =>
               let k := LightweightAlignment.key lwa in
               <[k := default ∅ (af_dict !! k) ∪ {[LightweightAlignment.name lwa]}]>
                 af_dict)
            lw_aligns ∅.

(** ** Second pass: the generator [_build_coordinate_families] *)

(** The generator's local dictionaries and the manifest it mutates. *)
Record families_state := mkState {
  family_dict : gmap CoordinateKey (gset PairedAlignment);
  pairing_dict : gmap string AlignedSegment;
  coord_read_name_manifest : gmap CoordinateKey (gset string)
}.

(** What one iteration of the loop did. *)
Inductive outcome :=
  | Waiting
      (* line 76: the read is stored until its mate arrives *)
  | Paired (key : CoordinateKey) (paired_align : PairedAlignment)
      (* lines 78-83: the pair is added to [family_dict[key]] *)
  | Yielded (key : CoordinateKey) (paired_align : PairedAlignment)
            (family : gset PairedAlignment)
      (* line 84: the pair is added and [family_dict.pop(key)] is yielded *)
  | Raised (key : CoordinateKey) (paired_align : PairedAlignment).
      (* line 82: [set.remove] raises [KeyError]; line 81 already ran *)

Definition coordinate_key (aseg : AlignedSegment) : CoordinateKey :=
  LightweightAlignment.key (LightweightAlignment.__init__ aseg).

(** [coord_read_name_manifest[key]] read as a set (a missing entry reads as
    the empty set the [defaultdict] would create). *)
Definition owed (manifest : gmap CoordinateKey (gset string))
    (key : CoordinateKey) : gset string :=
  default ∅ (manifest !! key).

Definition step (st : families_state) (aseg : AlignedSegment)
  : families_state * outcome :=
  match pairing_dict st !! query_name aseg with
  | None =>
      (mkState (family_dict st)
               (<[query_name aseg := aseg]> (pairing_dict st))
               (coord_read_name_manifest st),
       Waiting)
  | Some mate =>
      let pairing' := delete (query_name aseg) (pairing_dict st) in
      let paired_align := mkPairedAlignment mate aseg in
      let key := coordinate_key aseg in
      let family := default ∅ (family_dict st !! key) ∪ {[paired_align]} in
      let family' := <[key := family]> (family_dict st) in
      let names := owed (coord_read_name_manifest st) key in
      if decide (query_name aseg ∈ names) then
        let names' := names ∖ {[query_name aseg]} in
        let manifest' := <[key := names']> (coord_read_name_manifest st) in
        if decide (names' = ∅)
        then (mkState (delete key family') pairing' manifest',
              Yielded key paired_align family)
        else (mkState family' pairing' manifest', Paired key paired_align)
      else
        (mkState family' pairing'
                 (<[key := names]> (coord_read_name_manifest st)),
         Raised key paired_align)
  end.

Definition is_raised (o : outcome) : bool :=
  match o with Raised _ _ => true | _ => false end.

(** The loop: it stops at the first [KeyError]. *)
Fixpoint run (st : families_state) (aligned_segments : list AlignedSegment)
  : list outcome * families_state :=
  match aligned_segments with
  | [] => ([], st)
  | aseg :: rest =>
      let '(st', o) := step st aseg in
      if is_raised o then ([o], st')
      else let '(os, st'') := run st' rest in (o :: os, st'')
  end.

Definition _build_coordinate_families (aligned_segments : list AlignedSegment)
    (coord_read_name_manifest : gmap CoordinateKey (gset string))
  : list outcome * families_state :=
  run (mkState ∅ ∅ coord_read_name_manifest) aligned_segments.

(** Observations on a trace. *)
Definition yielded_key (o : outcome) : option CoordinateKey :=
  match o with Yielded k _ _ => Some k | _ => None end.
Definition inserted_key (o : outcome) : option CoordinateKey :=
  match o with
  | Waiting => None
  | Paired k _ | Yielded k _ _ | Raised k _ => Some k
  end.
Definition yielded_family (o : outcome) : option (gset PairedAlignment) :=
  match o with Yielded _ _ g => Some g | _ => None end.

(** The sequence of sets the generator yields. *)
Definition yields (trace : list outcome) : list (gset PairedAlignment) :=
  omap yielded_family trace.
Definition raises (trace : list outcome) : bool :=
  existsb is_raised trace.

(** Both passes of [main] over one input. *)
Definition coord_manifest (input : list AlignedSegment)
  : gmap CoordinateKey (gset string) :=
  _build_coordinate_read_name_manifest (map LightweightAlignment.__init__ input).
Definition families_of (input : list AlignedSegment)
  : list outcome * families_state :=
  _build_coordinate_families input (coord_manifest input).

(** ** Where the reads are during the second pass *)

(** The pairs in the families yielded so far, the pairs still held in
    [family_dict], and the reads still waiting in [pairing_dict]. *)
Definition yielded_pairs (trace : list outcome) : list PairedAlignment :=
  yields trace ≫= elements.
Definition pairs_in (families : gmap CoordinateKey (gset PairedAlignment))
  : list PairedAlignment :=
  map_to_list families ≫= (fun kg => elements kg.2).
Definition pending (pairing : gmap string AlignedSegment)
  : list AlignedSegment :=
  (map_to_list pairing).*2.

(** ** Readings of the specification and sample inputs *)

Definition name_count (name : string) (input : list AlignedSegment) : nat :=
  length (filter (fun r => query_name r = name) input).

(** Well-formed input: every read name occurs exactly twice and both
    occurrences compute the same coordinate key. *)
Definition well_formed (input : list AlignedSegment) : Prop :=
  forall r, r ∈ input ->
    name_count (query_name r) input = 2%nat
    /\ forall r', r' ∈ input -> query_name r' = query_name r ->
         coordinate_key r' = coordinate_key r.

(** The state of the generator after the prefix [done] of a well-formed
    [input], with [trace] the outcomes so far. *)
Record assembling (input done : list AlignedSegment) (trace : list outcome)
    (st : families_state) : Prop := mkAssembling {
  asm_no_raise : raises trace = false;
  asm_pairing : forall n,
    match pairing_dict st !! n with
    | Some r => query_name r = n /\ name_count n done = 1%nat
    | None => name_count n done <> 1%nat
    end;
  asm_owed_in : forall r, r ∈ input ->
    (name_count (query_name r) done < 2)%nat ->
    query_name r ∈ owed (coord_read_name_manifest st) (coordinate_key r);
  asm_owed_only : forall k n, n ∈ owed (coord_read_name_manifest st) k ->
    (name_count n done < 2)%nat
    /\ exists r, r ∈ input /\ query_name r = n /\ coordinate_key r = k;
  asm_family_open : forall k, is_Some (family_dict st !! k) ->
    owed (coord_read_name_manifest st) k <> ∅;
  asm_family_done : forall k g pa, family_dict st !! k = Some g -> pa ∈ g ->
    name_count (query_name (right_alignment pa)) done = 2%nat;
  asm_conserved :
    written (yielded_pairs trace ++ pairs_in (family_dict st))
    ++ pending (pairing_dict st) ≡ₚ done
}.

(** What the code guarantees of a step that comes after key [k] was yielded:
    it does not yield under [k], and if it inserts under [k] it raises. *)
Definition closed_for (k : CoordinateKey) (o : outcome) : Prop :=
  yielded_key o <> Some k /\ (inserted_key o = Some k -> is_raised o = true).

(** "After a group for a key has been yielded, no later step inserts a pair
    under that key or yields a group for it again." *)
Definition never_reopened (trace : list outcome) : Prop :=
  forall t1 o t2 k, trace = t1 ++ o :: t2 -> yielded_key o = Some k ->
    Forall (fun o' => inserted_key o' <> Some k /\ yielded_key o' <> Some k) t2.

(** "The manifest entry of a key is deleted at the instant its set of owed
    names becomes empty." *)
Definition deleted_when_empty (st : families_state) (aseg : AlignedSegment)
  : Prop :=
  forall k,
    owed (coord_read_name_manifest st) k <> ∅ ->
    owed (coord_read_name_manifest (step st aseg).1) k = ∅ ->
    coord_read_name_manifest (step st aseg).1 !! k = None.

(** "Clusters of size 3 and 1": the sizes of the families, in any order. *)
Definition cluster_sizes (families : list (gset PairedAlignment)) : list nat :=
  map size families.

Definition read (name : string) (pos1 pos2 : Z) (seq : string)
  : AlignedSegment :=
  mkAlignedSegment name "chr1" pos1 pos2 seq.

Definition sample_key : CoordinateKey := ("chr1"%string, 1, 5).
Definition mate1 : AlignedSegment := read "n" 1 5 "AAAGT".
Definition mate2 : AlignedSegment := read "n" 5 1 "CCCGT".
Definition sample_pair : PairedAlignment := mkPairedAlignment mate1 mate2.

(** One read without a mate; one complete pair; the same pair twice. *)
Definition orphan_input : list AlignedSegment := [mate1].
Definition one_pair_input : list AlignedSegment := [mate1; mate2].
Definition twice_paired_input : list AlignedSegment :=
  [mate1; mate2; mate1; mate2].

(** Two pairs at one coordinate whose reads interleave. *)
Definition two_pairs_input : list AlignedSegment :=
  [read "a" 1 5 "AAAGT"; read "b" 1 5 "AAATT";
   read "a" 5 1 "CCCGT"; read "b" 5 1 "CCCTT"].

(** Four pairs at one coordinate: tags (AAA,CCC) three times, (ATT,CCC)
    once. *)
Definition tagged_pair (name left_seq right_seq : string) : PairedAlignment :=
  mkPairedAlignment (read name 100 200 left_seq) (read name 200 100 right_seq).
Definition sample_family : list PairedAlignment :=
  [tagged_pair "a" "AAAGG" "CCCTT"; tagged_pair "b" "AAAGG" "CCCTT";
   tagged_pair "c" "AAATT" "CCCGG"; tagged_pair "d" "ATTGG" "CCCTT"].


Definition sample_coord_family : gset PairedAlignment :=
  list_to_set sample_family.
Definition tag_AAA_CCC : Tag := ("AAA"%string, "CCC"%string).
Definition tag_ATT_CCC : Tag := ("ATT"%string, "CCC"%string).

(** ** The entry point: [main] *)

(** The inner loop of [main] over the tag families of one coordinate family:
    the consensus pair of each family is written, left mate first.  The
    flag tells whether [pop] raised [KeyError] on an empty family. *)
Fixpoint write_consensus (tag_families : list (gset PairedAlignment))
    (outfile : list AlignedSegment) : list AlignedSegment * bool :=
  match tag_families with
  | [] => (outfile, false)
  | tag_family :: rest =>
      match _build_consensus_pair tag_family with
      | None => (outfile, true)
      | Some read_pair =>
          write_consensus rest
            (outfile ++ [left_alignment read_pair; right_alignment read_pair])
      end
  end.

(** The outer loop of [main] over the coordinate families the generator
    yields. *)
Fixpoint write_families (coord_families : list (gset PairedAlignment))
    (outfile : list AlignedSegment) : list AlignedSegment * bool :=
  match coord_families with
  | [] => (outfile, false)
  | coord_family :: rest =>
      let aligns := elements coord_family in
      let ranked_tags := _rank_tags aligns in
      let '(outfile', failed) :=
        write_consensus (_build_tag_families aligns ranked_tags) outfile in
      if failed then (outfile', true) else write_families rest outfile'
  end.

(** [main]: the records written to the output file, in order, and whether
    the run ended by an exception.  Both [bamfile.fetch()] calls deliver the
    same sequence [input_bam]; the generator is consumed lazily, so what it
    yielded before a [KeyError] has been written. *)
Definition main (input_bam : list AlignedSegment)
  : list AlignedSegment * bool :=
  let lw_aligns := map LightweightAlignment.__init__ input_bam in
  let coord_manifest := _build_coordinate_read_name_manifest lw_aligns in
  let trace := (_build_coordinate_families input_bam coord_manifest).1 in
  let '(outfile, failed) := write_families (yields trace) [] in
  (outfile, failed || raises trace).

(** ** Further observations used in the properties *)

(** The pair a step completed, if it completed one. *)
Definition completed_pair (o : outcome) : option PairedAlignment :=
  match o with
  | Waiting => None
  | Paired _ pa | Yielded _ pa _ | Raised _ pa => Some pa
  end.

(** [pa] is made of two reads of [segs] with one name, the left one met
    first, and [k] is the coordinate key of the right one. *)
Definition mates_in (segs : list AlignedSegment) (k : CoordinateKey)
    (pa : PairedAlignment) : Prop :=
  query_name (left_alignment pa) = query_name (right_alignment pa)
  /\ k = coordinate_key (right_alignment pa)
  /\ exists i j, (i < j)%nat /\ segs !! i = Some (left_alignment pa)
                 /\ segs !! j = Some (right_alignment pa).

(** Some ranked tag matches the pair. *)
Definition has_match (ranked_tags : list Tag) (paired_align : PairedAlignment)
  : bool :=
  existsb (tag_matches paired_align) ranked_tags.

(** The state of the generator, started with empty dictionaries and the
    manifest [manifest0], after the reads [done] and no [KeyError]. *)
Record pairing_inv (manifest0 : gmap CoordinateKey (gset string))
    (done : list AlignedSegment) (st : families_state) : Prop := mkPairingInv {
  pi_pairing : forall n r, pairing_dict st !! n = Some r ->
    query_name r = n /\ exists i, done !! i = Some r;
  pi_family : forall k g pa, family_dict st !! k = Some g -> pa ∈ g ->
    mates_in done k pa;
  pi_owed_sub : forall k n, n ∈ owed (coord_read_name_manifest st) k ->
    n ∈ owed manifest0 k;
  pi_names : forall k g n, family_dict st !! k = Some g ->
    (exists pa, pa ∈ g /\ query_name (right_alignment pa) = n)
    <-> n ∈ owed manifest0 k /\ n ∉ owed (coord_read_name_manifest st) k;
  pi_closed : forall k, family_dict st !! k = None ->
    owed (coord_read_name_manifest st) k = owed manifest0 k
    \/ owed (coord_read_name_manifest st) k = ∅
}.

(** What holds of every outcome of such a run over the reads [segs]. *)
Definition good_outcome (segs : list AlignedSegment)
    (manifest0 : gmap CoordinateKey (gset string)) (o : outcome) : Prop :=
  match o with
  | Waiting => True
  | Paired k pa | Raised k pa => mates_in segs k pa
  | Yielded k pa g =>
      pa ∈ g
      /\ (forall pa', pa' ∈ g -> mates_in segs k pa')
      /\ (forall n, n ∈ owed manifest0 k
             <-> exists pa', pa' ∈ g /\ query_name (right_alignment pa') = n)
  end.

(** The two pairs of [two_pairs_input]. *)
Definition pair_a : PairedAlignment :=
  mkPairedAlignment (read "a" 1 5 "AAAGT") (read "a" 5 1 "CCCGT").
Definition pair_b : PairedAlignment :=
  mkPairedAlignment (read "b" 1 5 "AAATT") (read "b" 5 1 "CCCTT").

(** How many pairs of reads named [n] the steps of a trace completed. *)
Definition completions (n : string) (trace : list outcome) : nat :=
  length (filter (fun o =>
            (query_name ∘ right_alignment) <$> completed_pair o = Some n)
          trace).

(** The reads named [n] met so far are those of the completed pairs and the
    one that waits; a name that left its manifest entry completed a pair. *)
Record counting_inv (manifest0 : gmap CoordinateKey (gset string))
    (done : list AlignedSegment) (trace : list outcome)
    (st : families_state) : Prop := mkCountingInv {
  ci_name : forall n r, pairing_dict st !! n = Some r -> query_name r = n;
  ci_count : forall n,
    name_count n done
    = (2 * completions n trace
       + match pairing_dict st !! n with Some _ => 1 | None => 0 end)%nat;
  ci_removed : forall k n, n ∈ owed manifest0 k ->
    n ∉ owed (coord_read_name_manifest st) k ->
    (1 <= completions n trace)%nat
}.

(** * Properties *)

(** ** The coordinate key *)

Lemma coordinate_key_min_max (aseg : AlignedSegment) :
  coordinate_key aseg =
  (reference_name aseg,
   Z.min (reference_start aseg) (next_reference_start aseg),
   Z.max (reference_start aseg) (next_reference_start aseg)).
Proof.
  unfold coordinate_key, LightweightAlignment.__init__.
  destruct (Z.ltb_spec (reference_start aseg) (next_reference_start aseg));
    simpl; [rewrite Z.min_l, Z.max_r by lia | rewrite Z.min_r, Z.max_l by lia];
    reflexivity.
Qed.

(** C4: the key built from own position [a] and mate position [b] is the key
    built from own position [b] and mate position [a], whatever the other
    fields of the two mates are; it is [(chrom, min a b, max a b)]. *)
Theorem coordinate_key_symmetric (chrom : string) (a b : Z)
    (name1 name2 seq1 seq2 : string) :
  coordinate_key (mkAlignedSegment name1 chrom a b seq1)
  = coordinate_key (mkAlignedSegment name2 chrom b a seq2)
  /\ coordinate_key (mkAlignedSegment name1 chrom a b seq1)
     = (chrom, Z.min a b, Z.max a b).
Proof.
  rewrite !coordinate_key_min_max; simpl.
  by rewrite (Z.min_comm b a), (Z.max_comm b a).
Qed.

(** ** One step of the generator and the manifest *)

Ltac step_cases st aseg :=
  unfold step;
  destruct (pairing_dict st !! query_name aseg) as [?mate|] eqn:?Hpairing;
  simpl;
  [ destruct (decide (query_name aseg
                      ∈ owed (coord_read_name_manifest st) (coordinate_key aseg)))
      as [?Hin|?Hnotin]; simpl;
    [ destruct (decide (owed (coord_read_name_manifest st) (coordinate_key aseg)
                        ∖ {[query_name aseg]} = ∅)) as [?Hempty|?Hnonempty];
      simpl
    | ]
  | ].

Lemma owed_insert_eq m k s : owed (<[k := s]> m) k = s.
Proof. unfold owed. by rewrite lookup_insert_eq. Qed.

Lemma owed_insert_ne m k k' s : k ≠ k' -> owed (<[k := s]> m) k' = owed m k'.
Proof. intros ?. unfold owed. by rewrite lookup_insert_ne. Qed.

(** No step adds a name to any entry of the manifest. *)
Lemma step_owed_subseteq st aseg k :
  owed (coord_read_name_manifest (step st aseg).1) k
  ⊆ owed (coord_read_name_manifest st) k.
Proof.
  step_cases st aseg; try done;
    (destruct (decide (coordinate_key aseg = k)) as [<-|Hne];
     [rewrite owed_insert_eq; set_solver | by rewrite owed_insert_ne]).
Qed.

(** No step deletes an entry of the manifest. *)
Lemma step_manifest_dom st aseg :
  dom (coord_read_name_manifest st)
  ⊆ dom (coord_read_name_manifest (step st aseg).1).
Proof. step_cases st aseg; try done; rewrite dom_insert_L; set_solver. Qed.

(** What a yielding step leaves behind. *)
Lemma step_yielded st aseg k pa g :
  (step st aseg).2 = Yielded k pa g ->
  coord_read_name_manifest (step st aseg).1 !! k = Some ∅
  /\ family_dict (step st aseg).1 !! k = None
  /\ g = default ∅ (family_dict st !! k) ∪ {[pa]}.
Proof.
  step_cases st aseg; intros Ho; try discriminate.
  injection Ho as <- <- <-.
  rewrite lookup_insert_eq, lookup_delete_eq. by rewrite Hempty.
Qed.

(** A pair that arrives under a key whose manifest entry is empty is added
    to [family_dict] and then stopped by [KeyError]. *)
Lemma step_inserted_empty st aseg k :
  owed (coord_read_name_manifest st) k = ∅ ->
  inserted_key (step st aseg).2 = Some k ->
  is_raised (step st aseg).2 = true
  /\ is_Some (family_dict (step st aseg).1 !! k).
Proof.
  intros Hk. step_cases st aseg; intros Ho; try discriminate;
    injection Ho as <-; try (rewrite Hk in *; set_solver).
  split; [done|]. rewrite lookup_insert_eq. eauto.
Qed.

(** ** The whole pass *)

Lemma run_cons st aseg rest :
  run st (aseg :: rest) =
  if is_raised (step st aseg).2 then ([(step st aseg).2], (step st aseg).1)
  else ((step st aseg).2 :: (run (step st aseg).1 rest).1,
        (run (step st aseg).1 rest).2).
Proof.
  simpl. destruct (step st aseg) as [st' o]; simpl.
  destruct (is_raised o); [done|]. by destruct (run st' rest).
Qed.

Lemma run_owed_subseteq st segs k :
  owed (coord_read_name_manifest (run st segs).2) k
  ⊆ owed (coord_read_name_manifest st) k.
Proof.
  revert st. induction segs as [|aseg rest IH]; intros st; [done|].
  rewrite run_cons. pose proof (step_owed_subseteq st aseg k).
  destruct (is_raised _); simpl; [done|]. specialize (IH (step st aseg).1).
  set_solver.
Qed.

Lemma run_manifest_dom st segs :
  dom (coord_read_name_manifest st)
  ⊆ dom (coord_read_name_manifest (run st segs).2).
Proof.
  revert st. induction segs as [|aseg rest IH]; intros st; [done|].
  rewrite run_cons. pose proof (step_manifest_dom st aseg).
  destruct (is_raised _); simpl; [done|]. specialize (IH (step st aseg).1).
  set_solver.
Qed.

(** An entry that is present and empty stays present and empty. *)
Lemma run_manifest_empty st segs k :
  coord_read_name_manifest st !! k = Some ∅ ->
  coord_read_name_manifest (run st segs).2 !! k = Some ∅.
Proof.
  intros Hk.
  assert (k ∈ dom (coord_read_name_manifest (run st segs).2)) as Hdom.
  { apply (run_manifest_dom st segs), elem_of_dom. eauto. }
  apply elem_of_dom in Hdom as [s Hs]. rewrite Hs. f_equal.
  pose proof (run_owed_subseteq st segs k) as Hsub.
  unfold owed in Hsub. rewrite Hs, Hk in Hsub. simpl in Hsub. set_solver.
Qed.

(** The trace after a step is the trace of a run from the state it left. *)
Lemma run_split st segs t1 o t2 :
  (run st segs).1 = t1 ++ o :: t2 ->
  exists st0 aseg rest,
    (step st0 aseg).2 = o
    /\ (if is_raised o then t2 = [] else t2 = (run (step st0 aseg).1 rest).1)
    /\ (run st segs).2
       = (if is_raised o then (step st0 aseg).1
          else (run (step st0 aseg).1 rest).2).
Proof.
  revert st segs. induction t1 as [|o1 t1 IH]; intros st segs.
  - destruct segs as [|aseg rest]; [done|]. rewrite run_cons.
    destruct (is_raised (step st aseg).2) eqn:Hr; simpl;
      intros [= <- <-]; exists st, aseg, rest; by rewrite Hr.
  - destruct segs as [|aseg rest]; [done|]. rewrite run_cons.
    destruct (is_raised (step st aseg).2) eqn:Hr; simpl; intros [= <- Ht].
    + by destruct t1.
    + by apply IH.
Qed.

(** Once the manifest entry of a key is empty, no step yields under it, and
    a step that inserts under it raises. *)
Lemma run_closed st segs k :
  owed (coord_read_name_manifest st) k = ∅ ->
  Forall (closed_for k) (run st segs).1.
Proof.
  revert st. induction segs as [|aseg rest IH]; intros st Hk; [constructor|].
  assert (closed_for k (step st aseg).2) as Hc.
  { split.
    - intros Hy.
      destruct (step_inserted_empty st aseg k Hk) as [Hr _].
      { by destruct (step st aseg).2. }
      by destruct (step st aseg).2.
    - intros Hi. by destruct (step_inserted_empty st aseg k Hk Hi). }
  rewrite run_cons. destruct (is_raised _); simpl.
  - apply Forall_cons_2; [done|apply Forall_nil_2].
  - apply Forall_cons_2; [done|]. apply IH.
    pose proof (step_owed_subseteq st aseg k). set_solver.
Qed.

Lemma run_yield_keys_NoDup st segs : NoDup (omap yielded_key (run st segs).1).
Proof.
  revert st. induction segs as [|aseg rest IH]; intros st; [constructor|].
  rewrite run_cons. destruct (is_raised (step st aseg).2) eqn:Hr; simpl.
  - destruct (step st aseg).2; try discriminate. constructor.
  - destruct (step st aseg).2 as [| | k pa g|] eqn:Ho; simpl; try apply IH.
    constructor; [|apply IH].
    destruct (step_yielded st aseg k pa g Ho) as (Hm & _).
    pose proof (run_closed (step st aseg).1 rest k) as Hc.
    rewrite Forall_forall in Hc. intros Hin.
    apply list_elem_of_omap in Hin as (o' & Ho' & Hy).
    by destruct (Hc ltac:(unfold owed; by rewrite Hm) o' Ho').
Qed.

(** ** No key is reopened (C1) *)

Lemma twice_paired_trace :
  (families_of twice_paired_input).1
  = [Waiting; Yielded sample_key sample_pair {[sample_pair]};
     Waiting; Raised sample_key sample_pair].
Proof. vm_compute. reflexivity. Qed.

(** C1, as stated, fails: when a read name comes back after its group was
    yielded, line 81 adds the new pair under the yielded key before line 82
    raises [KeyError]. *)
Lemma never_reopened_counterexample :
  ~ (NoDup (omap yielded_key (families_of twice_paired_input).1)
     /\ never_reopened (families_of twice_paired_input).1).
Proof.
  intros [_ H]. rewrite twice_paired_trace in H.
  specialize (H [Waiting] _ _ sample_key eq_refl eq_refl).
  apply Forall_cons in H as [_ H]. apply Forall_cons in H as [[H _] _].
  by apply H.
Qed.

(** C1, amended: for every input and every manifest each key is yielded at
    most once and is never yielded again; a later step that completes a pair
    under a yielded key adds it to [family_dict] and raises [KeyError], so a
    pass that raises nothing inserts no pair under a yielded key. *)
Theorem yielded_key_closed (aligned_segments : list AlignedSegment)
    (manifest : gmap CoordinateKey (gset string))
    (t1 t2 : list outcome) (o : outcome) (k : CoordinateKey) :
  (_build_coordinate_families aligned_segments manifest).1 = t1 ++ o :: t2 ->
  yielded_key o = Some k ->
  NoDup (omap yielded_key (t1 ++ o :: t2))
  /\ Forall (closed_for k) t2
  /\ (raises (t1 ++ o :: t2) = false ->
      Forall (fun o' => inserted_key o' <> Some k) t2).
Proof.
  unfold _build_coordinate_families. intros Htr Hy.
  assert (Forall (closed_for k) t2) as Hclosed.
  { apply run_split in Htr as (st0 & aseg & rest & Ho & Ht2 & _).
    destruct o as [| |k' pa g|]; try discriminate. injection Hy as ->.
    simpl in Ht2. subst t2. apply run_closed.
    destruct (step_yielded st0 aseg k pa g Ho) as (Hm & _).
    unfold owed. by rewrite Hm. }
  split; [rewrite <- Htr; apply run_yield_keys_NoDup|]. split; [done|].
  intros Hr. unfold raises in Hr.
  rewrite existsb_app in Hr. simpl in Hr.
  apply orb_false_iff in Hr as [_ Hr]. apply orb_false_iff in Hr as [_ Hr].
  clear Htr. induction Hclosed as [|o' t2' [_ Hc] _ IH]; [constructor|].
  simpl in Hr. apply orb_false_iff in Hr as [Hr1 Hr2].
  apply Forall_cons_2; [|exact (IH Hr2)].
  intros Hi. rewrite (Hc Hi) in Hr1. discriminate.
Qed.

Lemma yielded_key_closed_witness :
  (_build_coordinate_families twice_paired_input
     (coord_manifest twice_paired_input)).1
  = [Waiting] ++ Yielded sample_key sample_pair {[sample_pair]}
      :: [Waiting; Raised sample_key sample_pair]
  /\ yielded_key (Yielded sample_key sample_pair {[sample_pair]})
     = Some sample_key
  /\ Forall (closed_for sample_key) [Waiting; Raised sample_key sample_pair].
Proof.
  split; [exact twice_paired_trace|]. split; [reflexivity|].
  exact (proj1 (proj2 (yielded_key_closed twice_paired_input
    (coord_manifest twice_paired_input) [Waiting]
    [Waiting; Raised sample_key sample_pair]
    (Yielded sample_key sample_pair {[sample_pair]}) sample_key
    twice_paired_trace eq_refl))).
Defined.

(** ** The manifest during the second pass (C9) *)

(** The step that empties a manifest entry keeps the entry, yields the
    family of that key and pops it from [family_dict]. *)
Lemma step_empties st aseg k :
  owed (coord_read_name_manifest st) k <> ∅ ->
  owed (coord_read_name_manifest (step st aseg).1) k = ∅ ->
  coord_read_name_manifest (step st aseg).1 !! k = Some ∅
  /\ family_dict (step st aseg).1 !! k = None
  /\ exists pa g, (step st aseg).2 = Yielded k pa g.
Proof.
  step_cases st aseg; try done.
  - destruct (decide (coordinate_key aseg = k)) as [<-|Hne].
    + intros _ _. rewrite lookup_insert_eq, lookup_delete_eq, Hempty. eauto.
    + rewrite owed_insert_ne by done. congruence.
  - destruct (decide (coordinate_key aseg = k)) as [<-|Hne].
    + rewrite owed_insert_eq. congruence.
    + rewrite owed_insert_ne by done. congruence.
  - destruct (decide (coordinate_key aseg = k)) as [<-|Hne].
    + rewrite owed_insert_eq. congruence.
    + rewrite owed_insert_ne by done. congruence.
Qed.

Lemma one_pair_second_step :
  owed (coord_read_name_manifest (step (mkState ∅ ∅ (coord_manifest one_pair_input)) mate1).1)
       sample_key = {[ "n"%string ]}
  /\ coord_read_name_manifest
       (step (step (mkState ∅ ∅ (coord_manifest one_pair_input)) mate1).1
             mate2).1 !! sample_key = Some ∅.
Proof. split; vm_compute; reflexivity. Qed.

(** C9, as stated, fails: when the second mate of the only pair at a key
    arrives, the entry of the key becomes empty and is still in the
    manifest. *)
Lemma deleted_when_empty_counterexample :
  ~ deleted_when_empty
      (step (mkState ∅ ∅ (coord_manifest one_pair_input)) mate1).1 mate2.
Proof.
  intros H. destruct one_pair_second_step as [H1 H2].
  specialize (H sample_key). rewrite H2 in H.
  assert (Some (∅ : gset string) = None) as Hc; [|discriminate].
  apply H.
  - rewrite H1. set_solver.
  - unfold owed. by rewrite H2.
Qed.

(** C9, amended: during the second pass no name is ever added to a manifest
    entry and no entry is ever deleted; at the step that empties the entry of
    a key the entry stays, bound to the empty set, and it is the
    [family_dict] entry of that key that is removed and yielded. *)
Theorem manifest_shrinks_entries_stay (st : families_state)
    (aligned_segments : list AlignedSegment) (aseg : AlignedSegment)
    (k : CoordinateKey) :
  owed (coord_read_name_manifest (run st aligned_segments).2) k
    ⊆ owed (coord_read_name_manifest st) k
  /\ (k ∈ dom (coord_read_name_manifest st) ->
      k ∈ dom (coord_read_name_manifest (run st aligned_segments).2))
  /\ (owed (coord_read_name_manifest st) k <> ∅ ->
      owed (coord_read_name_manifest (step st aseg).1) k = ∅ ->
      coord_read_name_manifest (step st aseg).1 !! k = Some ∅
      /\ family_dict (step st aseg).1 !! k = None
      /\ exists pa g, (step st aseg).2 = Yielded k pa g).
Proof.
  split; [apply run_owed_subseteq|]. split; [|apply step_empties].
  apply run_manifest_dom.
Qed.

Lemma manifest_shrinks_entries_stay_witness :
  let st := (step (mkState ∅ ∅ (coord_manifest one_pair_input)) mate1).1 in
  owed (coord_read_name_manifest st) sample_key <> ∅
  /\ owed (coord_read_name_manifest (step st mate2).1) sample_key = ∅
  /\ coord_read_name_manifest (step st mate2).1 !! sample_key = Some ∅
  /\ family_dict (step st mate2).1 !! sample_key = None.
Proof.
  intros st. destruct one_pair_second_step as [H1 H2]. fold st in H1, H2.
  assert (owed (coord_read_name_manifest st) sample_key <> ∅) as Hbefore.
  { rewrite H1. intros Hs. apply (not_elem_of_empty (C:=gset string) "n"%string).
    rewrite <- Hs. by apply elem_of_singleton. }
  assert (owed (coord_read_name_manifest (step st mate2).1) sample_key = ∅)
    as Hafter by (unfold owed; by rewrite H2).
  split; [exact Hbefore|]. split; [exact Hafter|].
  destruct (manifest_shrinks_entries_stay st [] mate2 sample_key)
    as (_ & _ & H).
  destruct (H Hbefore Hafter) as (H3 & H4 & _). exact (conj H3 H4).
Defined.

(** ** The manifest built by the first pass *)

Lemma lightweight_name aseg :
  LightweightAlignment.name (LightweightAlignment.__init__ aseg)
  = query_name aseg.
Proof.
  unfold LightweightAlignment.__init__.
  by destruct (reference_start aseg <? next_reference_start aseg).
Qed.

Lemma manifest_fold_spec (lw_aligns : list LightweightAlignment.t)
    (acc : gmap CoordinateKey (gset string)) n k :
  n ∈ owed (fold_left (fun af_dict lwa =>
              let k := LightweightAlignment.key lwa in
              <[k := default ∅ (af_dict !! k) ∪ {[LightweightAlignment.name lwa]}]>
                af_dict) lw_aligns acc) k
  <-> n ∈ owed acc k
      \/ exists lwa, lwa ∈ lw_aligns /\ LightweightAlignment.name lwa = n
                     /\ LightweightAlignment.key lwa = k.
Proof.
  revert acc. induction lw_aligns as [|lwa rest IH]; intros acc; simpl.
  - split; [by left|]. intros [?|(lwa & Hin & _)]; [done|]. inversion Hin.
  - rewrite IH. clear IH. fold (owed acc (LightweightAlignment.key lwa)).
    destruct (decide (LightweightAlignment.key lwa = k)) as [<-|Hne].
    + rewrite owed_insert_eq. split.
      * intros [Hin|(lwa' & Hin & Hn & Hk)].
        -- apply elem_of_union in Hin as [Hin|Hin]; [by left|].
           apply elem_of_singleton in Hin. right. exists lwa.
           split; [left|]. done.
        -- right. exists lwa'. split; [by right|done].
      * intros [Hin|(lwa' & Hin & Hn & Hk)]; [left; set_solver|].
        apply elem_of_cons in Hin as [->|Hin].
        -- left. set_solver.
        -- right. eauto.
    + rewrite owed_insert_ne by done. split.
      * intros [Hin|(lwa' & Hin & Hn & Hk)]; [by left|].
        right. exists lwa'. split; [by right|done].
      * intros [Hin|(lwa' & Hin & Hn & Hk)]; [by left|].
        apply elem_of_cons in Hin as [->|Hin]; [done|]. right. eauto.
Qed.

(** The manifest of an input owes, at each key, the names of the reads that
    compute this key. *)
Lemma coord_manifest_spec input n k :
  n ∈ owed (coord_manifest input) k
  <-> exists r, r ∈ input /\ query_name r = n /\ coordinate_key r = k.
Proof.
  unfold coord_manifest, _build_coordinate_read_name_manifest.
  rewrite manifest_fold_spec. split.
  - intros [Hin|(lwa & Hin & Hn & Hk)]; [by apply not_elem_of_empty in Hin|].
    apply list_elem_of_fmap in Hin as (r & -> & Hr).
    exists r. by rewrite lightweight_name in Hn.
  - intros (r & Hr & Hn & Hk). right.
    exists (LightweightAlignment.__init__ r).
    split; [by apply list_elem_of_fmap_2|]. by rewrite lightweight_name.
Qed.

(** ** Reads whose name does not occur *)

Lemma run_app st p q :
  run st (p ++ q) =
  if raises (run st p).1 then run st p
  else ((run st p).1 ++ (run (run st p).2 q).1, (run (run st p).2 q).2).
Proof.
  revert st. induction p as [|aseg p IH]; intros st.
  - simpl. by destruct (run st q).
  - rewrite <- app_comm_cons, !run_cons.
    destruct (is_raised (step st aseg).2) eqn:Hr; simpl.
    + by rewrite Hr.
    + rewrite Hr. simpl. rewrite IH.
      by destruct (raises (run (step st aseg).1 p).1).
Qed.

Lemma step_other_name st aseg n k :
  query_name aseg <> n ->
  n ∈ owed (coord_read_name_manifest st) k ->
  yielded_key (step st aseg).2 <> Some k
  /\ n ∈ owed (coord_read_name_manifest (step st aseg).1) k
  /\ pairing_dict (step st aseg).1 !! n = pairing_dict st !! n.
Proof.
  intros Hn Hk. step_cases st aseg.
  - destruct (decide (coordinate_key aseg = k)) as [<-|Hne].
    + exfalso. set_solver.
    + rewrite owed_insert_ne, lookup_delete_ne by done.
      split; [congruence|done].
  - rewrite lookup_delete_ne by done. split; [done|]. split; [|done].
    destruct (decide (coordinate_key aseg = k)) as [<-|Hne].
    + rewrite owed_insert_eq. set_solver.
    + by rewrite owed_insert_ne.
  - rewrite lookup_delete_ne by done. split; [done|]. split; [|done].
    destruct (decide (coordinate_key aseg = k)) as [<-|Hne].
    + by rewrite owed_insert_eq.
    + by rewrite owed_insert_ne.
  - by rewrite lookup_insert_ne.
Qed.

Lemma run_other_names st segs n k :
  Forall (fun aseg => query_name aseg <> n) segs ->
  n ∈ owed (coord_read_name_manifest st) k ->
  Forall (fun o => yielded_key o <> Some k) (run st segs).1
  /\ n ∈ owed (coord_read_name_manifest (run st segs).2) k
  /\ (raises (run st segs).1 = false ->
      pairing_dict (run st segs).2 !! n = pairing_dict st !! n).
Proof.
  intros Hsegs. revert st.
  induction Hsegs as [|aseg rest Hn _ IH]; intros st Hk.
  - by repeat split.
  - destruct (step_other_name st aseg n k Hn Hk) as (Hy & Hk' & Hp).
    rewrite run_cons. destruct (is_raised (step st aseg).2) eqn:Hr; simpl.
    + rewrite Hr. simpl. split; [|done].
      apply Forall_cons_2; [done|apply Forall_nil_2].
    + destruct (IH _ Hk') as (IH1 & IH2 & IH3).
      split; [by apply Forall_cons_2|]. split; [done|].
      rewrite Hr. simpl. intros Hnr. by rewrite IH3.
Qed.

(** ** Orphan reads (C8) *)

Lemma name_count_zero n l :
  name_count n l = 0%nat -> Forall (fun r => query_name r <> n) l.
Proof.
  unfold name_count. induction l as [|r l IH]; [constructor|].
  rewrite filter_cons. destruct (decide (query_name r = n)); simpl; [done|].
  intros Hl. apply Forall_cons_2; [done|by apply IH].
Qed.

Lemma name_count_app n l1 l2 :
  name_count n (l1 ++ l2) = (name_count n l1 + name_count n l2)%nat.
Proof. unfold name_count. by rewrite filter_app, length_app. Qed.

Lemma name_count_cons n r l :
  name_count n (r :: l)
  = ((if decide (query_name r = n) then 1 else 0) + name_count n l)%nat.
Proof.
  unfold name_count. rewrite filter_cons.
  by destruct (decide (query_name r = n)).
Qed.

Lemma orphan_split input r :
  r ∈ input -> name_count (query_name r) input = 1%nat ->
  exists p q, input = p ++ r :: q
    /\ Forall (fun r' => query_name r' <> query_name r) p
    /\ Forall (fun r' => query_name r' <> query_name r) q.
Proof.
  intros Hin Hc. apply list_elem_of_split in Hin as (p & q & ->).
  exists p, q. split; [done|].
  rewrite name_count_app, name_count_cons in Hc.
  rewrite decide_True in Hc by done.
  split; apply name_count_zero; lia.
Qed.

(** C8, as stated, fails: a lone read is stored in [pairing_dict] and the
    pass ends without raising anything ([raises] records the only exception
    the pass can end with). *)
Lemma orphan_raises_counterexample :
  ~ (raises (families_of orphan_input).1 = true
     /\ Forall (fun o => yielded_key o <> Some (coordinate_key mate1))
               (families_of orphan_input).1).
Proof. intros [H _]. vm_compute in H. discriminate. Qed.

(** C8, amended: for every input with a read whose name occurs only once, no
    coordinate group is yielded for that read's key; the program has no
    [UnmatchedMateError]: the orphan is only stored in [pairing_dict], where
    it still waits when the pass ends without a [KeyError]. *)
Theorem orphan_key_not_yielded (input : list AlignedSegment)
    (r : AlignedSegment) :
  r ∈ input ->
  name_count (query_name r) input = 1%nat ->
  Forall (fun o => yielded_key o <> Some (coordinate_key r))
         (families_of input).1
  /\ (raises (families_of input).1 = false ->
      pairing_dict (families_of input).2 !! query_name r = Some r).
Proof.
  intros Hin Hc.
  assert (query_name r ∈ owed (coord_manifest input) (coordinate_key r)) as Hm.
  { apply coord_manifest_spec. eauto. }
  destruct (orphan_split input r Hin Hc) as (p & q & Hsplit & Hp & Hq).
  unfold families_of, _build_coordinate_families.
  generalize dependent (coord_manifest input). intros manifest Hm.
  rewrite Hsplit. clear Hsplit Hin Hc. rewrite run_app.
  set (st0 := mkState ∅ ∅ manifest).
  destruct (run_other_names st0 p _ _ Hp Hm) as (Hp1 & Hp2 & Hp3).
  destruct (raises (run st0 p).1) eqn:Hrp; [split; [done|congruence]|].
  specialize (Hp3 eq_refl). simpl in Hp3. rewrite lookup_empty in Hp3.
  set (st1 := (run st0 p).2) in *.
  assert (step st1 r
          = (mkState (family_dict st1) (<[query_name r := r]> (pairing_dict st1))
                     (coord_read_name_manifest st1), Waiting)) as Hstep.
  { unfold step. by rewrite Hp3. }
  rewrite run_cons, Hstep. simpl.
  set (st2 := mkState _ _ _).
  destruct (run_other_names st2 q _ _ Hq Hp2) as (Hq1 & Hq2 & Hq3).
  split.
  - apply Forall_app. split; [done|]. by apply Forall_cons_2.
  - unfold raises. rewrite existsb_app. simpl. intros Hr.
    apply orb_false_iff in Hr as [_ Hr].
    rewrite (Hq3 Hr). simpl. apply lookup_insert_eq.
Qed.

Lemma orphan_key_not_yielded_witness :
  mate1 ∈ orphan_input
  /\ name_count (query_name mate1) orphan_input = 1%nat
  /\ Forall (fun o => yielded_key o <> Some (coordinate_key mate1))
            (families_of orphan_input).1
  /\ (raises (families_of orphan_input).1 = false ->
      pairing_dict (families_of orphan_input).2 !! query_name mate1
      = Some mate1).
Proof.
  assert (mate1 ∈ orphan_input) as Hin by (left).
  assert (name_count (query_name mate1) orphan_input = 1%nat) as Hc
    by reflexivity.
  split; [exact Hin|]. split; [exact Hc|].
  exact (orphan_key_not_yielded orphan_input mate1 Hin Hc).
Defined.

(** ** Python's order on strings and tuples *)

Lemma str_ltb_lt a b : String.ltb a b = true <-> str_lt a b.
Proof.
  unfold String.ltb, str_lt. destruct (String.compare a b); split; congruence.
Qed.

#[local] Instance str_lt_strict : StrictOrder str_lt.
Proof.
  split.
  - intros s Hs. unfold str_lt in Hs.
    pose proof (proj2 (String_as_OT.cmp_eq s s) eq_refl) as He.
    unfold String_as_OT.cmp in He. congruence.
  - intros s1 s2 s3 H12 H23. apply String_as_OT.cmp_lt.
    apply String_as_OT.lt_trans with s2; by apply String_as_OT.cmp_lt.
Qed.

#[local] Instance str_lt_trichotomy : Trichotomy str_lt.
Proof.
  intros s1 s2. unfold str_lt.
  destruct (String.compare s1 s2) eqn:Hc.
  - right; left. by apply String.compare_eq_iff.
  - by left.
  - right; right. rewrite String.compare_antisym, Hc. done.
Qed.

Section lexicographic.
Context {A B : Type} (ltA : relation A) (ltB : relation B).
Context `{!StrictOrder ltA, !Trichotomy ltA, !StrictOrder ltB, !Trichotomy ltB}.
Context (lt : relation (A * B)).
Hypothesis lt_lex :
  forall x y, lt x y <-> ltA x.1 y.1 \/ (x.1 = y.1 /\ ltB x.2 y.2).

Lemma lex_strict : StrictOrder lt.
Proof.
  split.
  - intros x Hx. apply lt_lex in Hx as [Hx|[_ Hx]].
    + exact (irreflexivity ltA _ Hx).
    + exact (irreflexivity ltB _ Hx).
  - intros x y z Hxy Hyz. apply lt_lex. apply lt_lex in Hxy, Hyz.
    destruct Hxy as [Hxy|[Exy Hxy]], Hyz as [Hyz|[Eyz Hyz]].
    + left. by etrans.
    + left. by rewrite <- Eyz.
    + left. by rewrite Exy.
    + right. split; [congruence|by etrans].
Qed.

Lemma lex_trichotomy : Trichotomy lt.
Proof.
  intros [a1 b1] [a2 b2]. rewrite !lt_lex. simpl.
  destruct (trichotomy ltA a1 a2) as [?|[->|?]]; [by left; left| |by right; right; left].
  destruct (trichotomy ltB b1 b2) as [?|[->|?]].
  - left; right. done.
  - right; left. done.
  - right; right; right. done.
Qed.
End lexicographic.

#[local] Instance tag_lt_strict : StrictOrder tag_lt.
Proof. by apply (lex_strict str_lt str_lt). Qed.
#[local] Instance tag_lt_trichotomy : Trichotomy tag_lt.
Proof. by apply (lex_trichotomy str_lt str_lt). Qed.
#[local] Instance key_lt_strict : StrictOrder key_lt.
Proof. by apply (lex_strict Z.lt tag_lt). Qed.
#[local] Instance Z_lt_trichotomy : Trichotomy Z.lt.
Proof. intros x y. destruct (Z.lt_trichotomy x y) as [?|[?|?]]; auto. Qed.
#[local] Instance key_lt_trichotomy : Trichotomy key_lt.
Proof. by apply (lex_trichotomy Z.lt tag_lt). Qed.

Lemma tag_ltb_lt t1 t2 : tag_ltb t1 t2 = true <-> tag_lt t1 t2.
Proof.
  unfold tag_ltb, tag_lt. destruct (decide (t1.1 = t2.1)) as [E|E];
    rewrite str_ltb_lt.
  - split; [by right|]. intros [H|[_ H]]; [|done].
    rewrite E in H. destruct (irreflexivity str_lt _ H).
  - split; [by left|]. by intros [H|[? _]].
Qed.

Lemma key_ltb_lt k1 k2 : key_ltb k1 k2 = true <-> key_lt k1 k2.
Proof.
  unfold key_ltb, key_lt. destruct (decide (k1.1 = k2.1)) as [E|E].
  - rewrite tag_ltb_lt. split; [by right|]. intros [H|[_ H]]; [lia|done].
  - rewrite Z.ltb_lt. split; [by left|]. by intros [H|[? _]].
Qed.

(** ** Lemmas on insertion-ordered dictionaries *)

Section defaultdict_lemmas.
Context {K V : Type} `{EqDecision K}.
Implicit Types (d : list (K * V)) (f : V -> V).

Lemma dd_get_update f dflt k k' d :
  dd_get k' (dd_update f dflt k d)
  = if decide (k = k') then Some (f (default dflt (dd_get k d)))
    else dd_get k' d.
Proof.
  induction d as [|[k0 v0] d IH]; simpl.
  - by destruct (decide (k = k')).
  - destruct (decide (k0 = k)) as [->|Hne]; simpl.
    + by destruct (decide (k = k')).
    + rewrite IH. destruct (decide (k0 = k')) as [->|?]; [|done].
      by rewrite decide_False by done.
Qed.

Lemma elem_of_dd_keys_update f dflt k k' d :
  k' ∈ dd_keys (dd_update f dflt k d) <-> k' = k \/ k' ∈ dd_keys d.
Proof.
  unfold dd_keys. induction d as [|[k0 v0] d IH]; simpl.
  - rewrite list_elem_of_singleton. split; [by left|].
    intros [?|Hin]; [done|inversion Hin].
  - destruct (decide (k0 = k)) as [->|Hne]; simpl.
    + rewrite !elem_of_cons. tauto.
    + rewrite !elem_of_cons, IH. tauto.
Qed.

Lemma dd_keys_update_NoDup f dflt k d :
  NoDup (dd_keys d) -> NoDup (dd_keys (dd_update f dflt k d)).
Proof.
  induction d as [|[k0 v0] d IH]; simpl.
  - intros _. apply NoDup_singleton.
  - intros [Hk0 Hd]%NoDup_cons.
    destruct (decide (k0 = k)) as [->|Hne]; simpl.
    + by apply NoDup_cons.
    + apply NoDup_cons. split; [|by apply IH].
      intros [?|?]%elem_of_dd_keys_update; congruence.
Qed.

Lemma dd_get_None k d : dd_get k d = None <-> k ∉ dd_keys d.
Proof.
  unfold dd_keys. induction d as [|[k0 v0] d IH]; simpl.
  - split; [|done]. intros _ Hin. inversion Hin.
  - rewrite not_elem_of_cons. destruct (decide (k0 = k)) as [->|Hne].
    + split; [done|]. by intros [? _].
    + rewrite IH. split; [by split|]. by intros [_ ?].
Qed.

Lemma dd_get_Some_elem_of k v d : dd_get k d = Some v -> (k, v) ∈ d.
Proof.
  induction d as [|[k0 v0] d IH]; simpl; [done|].
  destruct (decide (k0 = k)) as [->|Hne].
  - intros [= ->]. left.
  - intros Hg. right. by apply IH.
Qed.

Lemma elem_of_dd_get k v d : NoDup (dd_keys d) -> (k, v) ∈ d -> dd_get k d = Some v.
Proof.
  induction d as [|[k0 v0] d IH]; simpl; [by intros _ Hin; inversion Hin|].
  intros [Hk0 Hd]%NoDup_cons [[= -> ->]|Hin]%elem_of_cons.
  - by rewrite decide_True.
  - rewrite decide_False; [by apply IH|].
    intros ->. apply Hk0. unfold dd_keys.
    by apply (list_elem_of_fmap_2 fst) in Hin.
Qed.

Lemma dd_update_Forall (P : V -> Prop) f dflt k d :
  (forall v, P v -> P (f v)) -> P (f dflt) ->
  Forall (fun kv => P kv.2) d ->
  Forall (fun kv => P kv.2) (dd_update f dflt k d).
Proof.
  intros Hf Hd. induction 1 as [|[k0 v0] d Hv Hrest IH]; simpl.
  - apply Forall_cons_2; [done|apply Forall_nil_2].
  - destruct (decide (k0 = k)); apply Forall_cons_2; simpl; auto.
Qed.
End defaultdict_lemmas.

(** ** The counting loop of [_rank_tags] *)

Lemma tag_occurrences_cons t pa group :
  tag_occurrences t (pa :: group)
  = ((if decide (tag_of pa = t) then 1 else 0) + tag_occurrences t group)%nat.
Proof.
  unfold tag_occurrences. rewrite filter_cons.
  by destruct (decide (tag_of pa = t)).
Qed.

Lemma tag_occurrences_pos t group :
  (0 < tag_occurrences t group)%nat <-> exists pa, pa ∈ group /\ tag_of pa = t.
Proof.
  unfold tag_occurrences. split.
  - intros Hlen. destruct (filter _ group) as [|pa l] eqn:Hf; [simpl in Hlen; lia|].
    assert (pa ∈ filter (fun pa => tag_of pa = t) group) as Hin
      by (rewrite Hf; left).
    apply list_elem_of_filter in Hin as [? ?]. eauto.
  - intros (pa & Hin & Ht).
    assert (pa ∈ filter (fun pa => tag_of pa = t) group) as Hin'
      by (by apply list_elem_of_filter).
    destruct (filter _ group); [inversion Hin'|simpl; lia].
Qed.

Lemma tag_occurrences_fmap t group :
  tag_occurrences t group = length (filter (fun t' => t' = t) (tag_of <$> group)).
Proof.
  unfold tag_occurrences. induction group as [|pa group IH]; [done|].
  rewrite fmap_cons, !filter_cons.
  destruct (decide (tag_of pa = t)); simpl; by rewrite IH.
Qed.

(** The number of occurrences only depends on the multiset of tags. *)
Lemma tag_occurrences_Permutation t g1 g2 :
  tag_of <$> g1 ≡ₚ tag_of <$> g2 ->
  tag_occurrences t g1 = tag_occurrences t g2.
Proof. intros Hp. rewrite !tag_occurrences_fmap. by rewrite Hp. Qed.

Lemma count_fold_spec (group : list PairedAlignment) (acc : list (Tag * Z)) :
  NoDup (dd_keys acc) ->
  let tag_count :=
    fold_left (fun tag_count paired_align =>
                 dd_update (fun c => c + 1) 0 (tag_of paired_align) tag_count)
              group acc in
  NoDup (dd_keys tag_count)
  /\ (forall t, default 0 (dd_get t tag_count)
                = default 0 (dd_get t acc) + Z.of_nat (tag_occurrences t group))
  /\ (forall t, t ∈ dd_keys tag_count
                <-> t ∈ dd_keys acc \/ exists pa, pa ∈ group /\ tag_of pa = t).
Proof.
  revert acc. induction group as [|pa group IH]; intros acc Hnd; simpl.
  - split; [done|]. split; [intros t; unfold tag_occurrences; simpl; lia|].
    intros t. split; [by left|]. intros [?|(pa & Hin & _)]; [done|inversion Hin].
  - destruct (IH (dd_update (fun c => c + 1) 0 (tag_of pa) acc))
      as (IH1 & IH2 & IH3); [by apply dd_keys_update_NoDup|].
    split; [done|]. split.
    + intros t. rewrite IH2, dd_get_update, tag_occurrences_cons.
      destruct (decide (tag_of pa = t)) as [->|Hne]; simpl; lia.
    + intros t. rewrite IH3, elem_of_dd_keys_update. split.
      * intros [[->|?]|(pa' & Hin & Ht)]; [right; exists pa|by left|right; exists pa'].
        -- split; [left|done].
        -- split; [by right|done].
      * intros [?|(pa' & [->|Hin]%elem_of_cons & Ht)]; eauto.
Qed.

Lemma count_tags_NoDup group : NoDup (dd_keys (count_tags group)).
Proof. apply (count_fold_spec group []). constructor. Qed.

Lemma elem_of_count_tags_keys group t :
  t ∈ dd_keys (count_tags group) <-> exists pa, pa ∈ group /\ tag_of pa = t.
Proof.
  destruct (count_fold_spec group [] NoDup_nil_2) as (_ & _ & H).
  unfold count_tags. rewrite H. split; [|by right].
  intros [Hin|?]; [inversion Hin|done].
Qed.

(** Every item of [tag_count.items()] carries the number of occurrences. *)
Lemma elem_of_count_tags group t c :
  (t, c) ∈ count_tags group -> c = Z.of_nat (tag_occurrences t group).
Proof.
  intros Hin. apply elem_of_dd_get in Hin; [|apply count_tags_NoDup].
  destruct (count_fold_spec group [] NoDup_nil_2) as (_ & H & _).
  specialize (H t). unfold count_tags in Hin. rewrite Hin in H. simpl in H. lia.
Qed.

(** ** [sorted] *)

Lemma key_le_trans x y z : key_le x y -> key_le y z -> key_le x z.
Proof.
  unfold key_le. intros Hxy Hyz Hzx.
  destruct (trichotomy key_lt (sort_key x) (sort_key y)) as [H|[H|H]].
  - apply Hyz. by etrans.
  - rewrite H in Hzx. done.
  - done.
Qed.

Lemma sorted_insert_Permutation x l : sorted_insert x l ≡ₚ x :: l.
Proof.
  induction l as [|y l IH]; simpl; [done|].
  destruct (key_ltb (sort_key y) (sort_key x)); [|done].
  rewrite IH. apply Permutation_swap.
Qed.

Lemma sorted_Permutation l : sorted l ≡ₚ l.
Proof.
  unfold sorted. induction l as [|x l IH]; simpl; [done|].
  by rewrite sorted_insert_Permutation, IH.
Qed.

Lemma sorted_insert_StronglySorted x l :
  StronglySorted key_le l -> StronglySorted key_le (sorted_insert x l).
Proof.
  induction 1 as [|y l Hl IH Hy]; simpl.
  - apply SSorted_cons; [apply SSorted_nil|apply Forall_nil_2].
  - destruct (key_ltb (sort_key y) (sort_key x)) eqn:Hlt.
    + apply key_ltb_lt in Hlt. apply SSorted_cons; [done|].
      rewrite sorted_insert_Permutation. apply Forall_cons_2; [|done].
      intros Hxy. apply (irreflexivity key_lt (sort_key x)). by etrans.
    + assert (key_le x y) as Hxy.
      { intros H. apply key_ltb_lt in H. congruence. }
      apply SSorted_cons; [by apply SSorted_cons|].
      apply Forall_cons_2; [done|].
      eapply Forall_impl; [exact Hy|]. intros z Hz. by eapply key_le_trans.
Qed.

Lemma sorted_StronglySorted l : StronglySorted key_le (sorted l).
Proof.
  unfold sorted. induction l as [|x l IH]; simpl; [apply SSorted_nil|].
  by apply sorted_insert_StronglySorted.
Qed.

(** ** Ranking (C6, C7) *)

Lemma rank_tags_Permutation group :
  _rank_tags group ≡ₚ dd_keys (count_tags group).
Proof. unfold _rank_tags, dd_keys. by rewrite sorted_Permutation. Qed.

Lemma rank_tags_NoDup group : NoDup (_rank_tags group).
Proof. rewrite rank_tags_Permutation. apply count_tags_NoDup. Qed.

Lemma elem_of_rank_tags group t :
  t ∈ _rank_tags group <-> exists pa, pa ∈ group /\ tag_of pa = t.
Proof. rewrite rank_tags_Permutation. apply elem_of_count_tags_keys. Qed.

Lemma elem_of_rank_tags_fmap group t :
  t ∈ _rank_tags group <-> t ∈ tag_of <$> group.
Proof.
  rewrite elem_of_rank_tags, list_elem_of_fmap. split.
  - intros (pa & Hin & <-). eauto.
  - intros (pa & -> & Hin). eauto.
Qed.

Lemma ranking_sorted group (l : list (Tag * Z)) :
  StronglySorted key_le l ->
  NoDup (map fst l) ->
  Forall (fun x => x.2 = Z.of_nat (tag_occurrences x.1 group)) l ->
  StronglySorted (ranked_before group) (map fst l).
Proof.
  induction 1 as [|x l Hl IH Hx]; simpl; [intros; apply SSorted_nil|].
  intros [Hfresh Hnd]%NoDup_cons [Hcx Hcl]%Forall_cons.
  apply SSorted_cons; [by apply IH|].
  apply Forall_fmap, Forall_forall. intros y Hy. simpl.
  rewrite Forall_forall in Hx, Hcl.
  specialize (Hx y Hy). specialize (Hcl y Hy). simpl in Hcl.
  assert (x.1 <> y.1) as Hne.
  { intros E. apply Hfresh. rewrite E. by apply (list_elem_of_fmap_2 fst). }
  destruct (trichotomy key_lt (sort_key x) (sort_key y)) as [H|[H|H]].
  - unfold key_lt, sort_key in H. simpl in H. unfold ranked_before.
    destruct H as [H|[H1 H2]]; [left; lia|right; split; [lia|done]].
  - unfold sort_key in H. by injection H.
  - done.
Qed.

Lemma rank_tags_sorted_wrt group group' :
  tag_of <$> group' ≡ₚ tag_of <$> group ->
  StronglySorted (ranked_before group) (_rank_tags group').
Proof.
  intros Hp. unfold _rank_tags. apply ranking_sorted.
  - apply sorted_StronglySorted.
  - apply rank_tags_NoDup.
  - apply Forall_forall. intros [t c] Hin. simpl.
    rewrite sorted_Permutation in Hin.
    rewrite <- (tag_occurrences_Permutation t group' group Hp).
    by apply elem_of_count_tags.
Qed.

Lemma rank_tags_sorted group :
  StronglySorted (ranked_before group) (_rank_tags group).
Proof. by apply rank_tags_sorted_wrt. Qed.

Lemma ranked_before_asym group t1 t2 :
  ranked_before group t1 t2 -> ranked_before group t2 t1 -> False.
Proof.
  unfold ranked_before. intros [H1|[E1 H1]] [H2|[E2 H2]]; try lia.
  apply (irreflexivity tag_lt t1). by etrans.
Qed.

(** The ranking is the only duplicate-free list of the observed tags that
    is in ranking order. *)
Lemma rank_tags_unique (group : list PairedAlignment) (l : list Tag) :
  NoDup l ->
  (forall t, t ∈ l <-> t ∈ tag_of <$> group) ->
  StronglySorted (ranked_before group) l ->
  l = _rank_tags group.
Proof.
  intros Hnd Hmem Hsorted.
  apply (StronglySorted_unique_strong (ranked_before group)).
  - intros t1 t2 _ _ H12 H21. destruct (ranked_before_asym _ _ _ H12 H21).
  - done.
  - apply rank_tags_sorted.
  - apply NoDup_Permutation; [done|apply rank_tags_NoDup|].
    intros t. by rewrite Hmem, elem_of_rank_tags_fmap.
Qed.

(** C6: the ranking lists exactly the distinct tags observed in the group,
    each once; a tag with more occurrences comes before a tag with fewer,
    and of two tags with the same number of occurrences the
    lexicographically smaller [(left, right)] comes first. *)
Theorem rank_tags_spec (group : list PairedAlignment) :
  NoDup (_rank_tags group)
  /\ (forall t, t ∈ _rank_tags group
                <-> exists paired_align,
                      paired_align ∈ group /\ tag_of paired_align = t)
  /\ StronglySorted (ranked_before group) (_rank_tags group).
Proof.
  split; [apply rank_tags_NoDup|]. split; [apply elem_of_rank_tags|].
  apply rank_tags_sorted.
Qed.

(** C7: the ranking is a function of the multiset of tags of the group: two
    iteration sequences with the same tags up to order, in particular two
    iteration orders of the same pairs, are ranked identically. *)
Theorem rank_tags_order_independent (group1 group2 : list PairedAlignment) :
  tag_of <$> group1 ≡ₚ tag_of <$> group2 ->
  _rank_tags group1 = _rank_tags group2.
Proof.
  intros Hp. apply rank_tags_unique.
  - apply rank_tags_NoDup.
  - intros t. by rewrite elem_of_rank_tags_fmap, Hp.
  - by apply rank_tags_sorted_wrt.
Qed.

Lemma rank_tags_order_independent_witness :
  sample_family ≡ₚ reverse sample_family
  /\ tag_of <$> sample_family ≡ₚ tag_of <$> reverse sample_family
  /\ _rank_tags sample_family = _rank_tags (reverse sample_family).
Proof.
  assert (sample_family ≡ₚ reverse sample_family) as Hp
    by (symmetry; apply reverse_Permutation).
  assert (tag_of <$> sample_family ≡ₚ tag_of <$> reverse sample_family)
    as Hp' by (by apply fmap_Permutation).
  split; [exact Hp|]. split; [exact Hp'|].
  exact (rank_tags_order_independent _ _ Hp').
Defined.

(** ** Partitioning (C5) *)

Lemma tag_matches_spec pa t : tag_matches pa t = true <-> matches_tag pa t.
Proof.
  unfold tag_matches, matches_tag.
  rewrite orb_true_iff, !bool_decide_eq_true. done.
Qed.

Lemma first_matching_tag_cons pa t0 ranked t :
  first_matching_tag pa (t0 :: ranked) t
  <-> (matches_tag pa t0 /\ t = t0)
      \/ (~ matches_tag pa t0 /\ first_matching_tag pa ranked t).
Proof.
  split.
  - intros ([|t1 before] & after & Heq & Hb & Hm); simpl in Heq.
    + injection Heq as -> ->. by left.
    + injection Heq as -> ->. apply Forall_cons in Hb as [Hb1 Hb].
      right. split; [done|]. by exists before, after.
  - intros [[Hm ->]|[Hn (before & after & -> & Hb & Hm)]].
    + exists [], ranked. split; [done|]. split; [apply Forall_nil_2|done].
    + exists (t0 :: before), after. split; [done|].
      split; [by apply Forall_cons_2|done].
Qed.

Lemma first_matching_tag_unique pa ranked t1 t2 :
  first_matching_tag pa ranked t1 -> first_matching_tag pa ranked t2 -> t1 = t2.
Proof.
  induction ranked as [|t0 ranked IH].
  - intros (before & after & Heq & _). by destruct before.
  - rewrite !first_matching_tag_cons.
    intros [[? ->]|[? H1]] [[? ->]|[? H2]]; try done. by apply IH.
Qed.

Lemma first_matching_tag_exists pa ranked t :
  t ∈ ranked -> matches_tag pa t -> exists t', first_matching_tag pa ranked t'.
Proof.
  induction ranked as [|t0 ranked IH]; [by intros Hin; inversion Hin|].
  intros Hin Hm.
  destruct (tag_matches pa t0) eqn:H0.
  - exists t0. apply first_matching_tag_cons. left.
    by apply tag_matches_spec in H0.
  - assert (~ matches_tag pa t0) as Hn.
    { intros H. apply tag_matches_spec in H. congruence. }
    apply elem_of_cons in Hin as [->|Hin]; [done|].
    destruct (IH Hin Hm) as [t' Ht']. exists t'.
    apply first_matching_tag_cons. by right.
Qed.

(** The inner loop either adds the pair to the cluster of its first matching
    tag or, when no tag matches, leaves [tag_aligns] as it is. *)
Lemma assign_pair_spec pa ranked tag_aligns :
  (exists t, first_matching_tag pa ranked t
             /\ assign_pair pa ranked tag_aligns
                = dd_update (fun s => s ∪ {[pa]}) ∅ t tag_aligns)
  \/ (Forall (fun t => ~ matches_tag pa t) ranked
      /\ assign_pair pa ranked tag_aligns = tag_aligns).
Proof.
  induction ranked as [|t0 ranked IH]; simpl.
  - right. split; [apply Forall_nil_2|done].
  - destruct (tag_matches pa t0) eqn:H0.
    + left. exists t0. split; [|done].
      apply first_matching_tag_cons. left. by apply tag_matches_spec in H0.
    + assert (~ matches_tag pa t0) as Hn.
      { intros H. apply tag_matches_spec in H. congruence. }
      destruct IH as [(t & Ht & Heq)|[Hall Heq]].
      * left. exists t. split; [|done].
        apply first_matching_tag_cons. by right.
      * right. split; [by apply Forall_cons_2|done].
Qed.

Lemma first_matching_tag_not_all pa ranked t :
  first_matching_tag pa ranked t ->
  Forall (fun t => ~ matches_tag pa t) ranked -> False.
Proof.
  intros (before & after & -> & _ & Hm) Hall.
  apply Forall_app in Hall as [_ Hall]. apply Forall_cons in Hall as [Hn _].
  done.
Qed.

Lemma tag_family_update pa t t' tag_aligns :
  tag_family (dd_update (fun s => s ∪ {[pa]}) ∅ t tag_aligns) t'
  = if decide (t = t') then tag_family tag_aligns t ∪ {[pa]}
    else tag_family tag_aligns t'.
Proof.
  unfold tag_family. rewrite dd_get_update. by destruct (decide (t = t')).
Qed.

Lemma elem_of_assign_pair pa ranked tag_aligns pa' t' :
  pa' ∈ tag_family (assign_pair pa ranked tag_aligns) t'
  <-> pa' ∈ tag_family tag_aligns t'
      \/ (pa' = pa /\ first_matching_tag pa ranked t').
Proof.
  destruct (assign_pair_spec pa ranked tag_aligns)
    as [(t & Ht & ->)|[Hall ->]].
  - rewrite tag_family_update. destruct (decide (t = t')) as [->|Hne].
    + rewrite elem_of_union, elem_of_singleton. split.
      * intros [?| ->]; [by left|by right].
      * intros [?|[-> _]]; [by left|by right].
    + split; [by left|]. intros [?|[-> Ht']]; [done|].
      destruct Hne. by eapply first_matching_tag_unique.
  - split; [by left|]. intros [?|[-> Ht']]; [done|].
    destruct (first_matching_tag_not_all _ _ _ Ht' Hall).
Qed.

Lemma elem_of_fold_assign group ranked tag_aligns pa t :
  pa ∈ tag_family
         (fold_left (fun tag_aligns paired_align =>
                       assign_pair paired_align ranked tag_aligns)
                    group tag_aligns) t
  <-> pa ∈ tag_family tag_aligns t
      \/ (pa ∈ group /\ first_matching_tag pa ranked t).
Proof.
  revert tag_aligns. induction group as [|pa0 group IH]; intros tag_aligns.
  - simpl. split; [by left|]. intros [?|[Hin _]]; [done|inversion Hin].
  - simpl. rewrite IH, elem_of_assign_pair, elem_of_cons. split.
    + intros [[?|[-> ?]]|[? ?]]; auto.
    + intros [?|[[->|?] ?]]; auto.
Qed.

Lemma fold_assign_keys_NoDup group ranked tag_aligns :
  NoDup (dd_keys tag_aligns) ->
  NoDup (dd_keys (fold_left (fun tag_aligns paired_align =>
                               assign_pair paired_align ranked tag_aligns)
                            group tag_aligns)).
Proof.
  revert tag_aligns. induction group as [|pa0 group IH]; intros tag_aligns Hnd;
    [done|].
  simpl. apply IH.
  destruct (assign_pair_spec pa0 ranked tag_aligns)
    as [(t & Ht & ->)|[Hall ->]]; [by apply dd_keys_update_NoDup|done].
Qed.

Lemma elem_of_build_tag_aligns group ranked pa t :
  pa ∈ tag_family (build_tag_aligns group ranked) t
  <-> pa ∈ group /\ first_matching_tag pa ranked t.
Proof.
  unfold build_tag_aligns. rewrite elem_of_fold_assign.
  split; [|by right]. intros [Hin|?]; [|done].
  by apply not_elem_of_empty in Hin.
Qed.

Lemma build_tag_aligns_NoDup group ranked :
  NoDup (dd_keys (build_tag_aligns group ranked)).
Proof. apply fold_assign_keys_NoDup. constructor. Qed.

(** A pair that is in some returned family is in the family of a tag. *)
Lemma elem_of_tag_families group ranked c pa :
  c ∈ _build_tag_families group ranked -> pa ∈ c ->
  exists t, dd_get t (build_tag_aligns group ranked) = Some c
            /\ pa ∈ tag_family (build_tag_aligns group ranked) t.
Proof.
  unfold _build_tag_families, dd_values.
  intros ([t c'] & -> & Hin)%list_elem_of_fmap Hpa. simpl in Hpa.
  exists t. apply elem_of_dd_get in Hin; [|apply build_tag_aligns_NoDup].
  split; [done|]. unfold tag_family. by rewrite Hin.
Qed.

(** C5: a pair of the group is put in the family of the first tag, in rank
    order, whose left prefix is the pair's left prefix or whose right prefix
    is the pair's right prefix, and in no other family; that family is one
    of the returned ones and the only returned one that holds the pair. *)
Theorem first_matching_tag_wins (tagged_paired_aligns : list PairedAlignment)
    (ranked_tags : list Tag) (paired_align : PairedAlignment) (t : Tag) :
  paired_align ∈ tagged_paired_aligns ->
  first_matching_tag paired_align ranked_tags t ->
  (forall t', paired_align
                ∈ tag_family (build_tag_aligns tagged_paired_aligns ranked_tags) t'
              <-> t' = t)
  /\ exists family,
       dd_get t (build_tag_aligns tagged_paired_aligns ranked_tags)
       = Some family
       /\ paired_align ∈ family
       /\ family ∈ _build_tag_families tagged_paired_aligns ranked_tags
       /\ forall family',
            family' ∈ _build_tag_families tagged_paired_aligns ranked_tags ->
            paired_align ∈ family' -> family' = family.
Proof.
  intros Hin Ht.
  assert (forall t', paired_align
            ∈ tag_family (build_tag_aligns tagged_paired_aligns ranked_tags) t'
          <-> t' = t) as Honly.
  { intros t'. rewrite elem_of_build_tag_aligns. split.
    - intros [_ Ht']. by eapply first_matching_tag_unique.
    - by intros ->. }
  split; [done|].
  pose proof (proj2 (Honly t) eq_refl) as Hpa. unfold tag_family in Hpa.
  destruct (dd_get t (build_tag_aligns tagged_paired_aligns ranked_tags))
    as [family|] eqn:Hget; [|by apply not_elem_of_empty in Hpa].
  simpl in Hpa. exists family. split; [done|]. split; [done|]. split.
  - apply dd_get_Some_elem_of in Hget.
    unfold _build_tag_families, dd_values.
    by apply (list_elem_of_fmap_2 snd) in Hget.
  - intros family' Hf' Hpa'.
    destruct (elem_of_tag_families _ _ _ _ Hf' Hpa') as (t' & Hget' & Hin').
    apply Honly in Hin'. subst t'. congruence.
Qed.

Lemma first_matching_tag_wins_witness :
  let pa := tagged_pair "d" "ATTGG" "CCCTT" in
  pa ∈ sample_family
  /\ first_matching_tag pa [tag_AAA_CCC; tag_ATT_CCC] tag_AAA_CCC
  /\ (forall t', pa ∈ tag_family
                      (build_tag_aligns sample_family
                         [tag_AAA_CCC; tag_ATT_CCC]) t'
                 <-> t' = tag_AAA_CCC).
Proof.
  intros pa.
  assert (pa ∈ sample_family) as Hin.
  { apply list_elem_of_In. simpl. tauto. }
  assert (first_matching_tag pa [tag_AAA_CCC; tag_ATT_CCC] tag_AAA_CCC) as Ht.
  { exists [], [tag_ATT_CCC]. split; [reflexivity|].
    split; [apply Forall_nil_2|]. right. reflexivity. }
  split; [exact Hin|]. split; [exact Ht|].
  exact (proj1 (first_matching_tag_wins sample_family
                  [tag_AAA_CCC; tag_ATT_CCC] pa tag_AAA_CCC Hin Ht)).
Defined.

(** ** Partitioning with the group's own ranking (C10) *)

Lemma own_tag_matches pa group :
  pa ∈ group -> exists t, first_matching_tag pa (_rank_tags group) t.
Proof.
  intros Hin. apply (first_matching_tag_exists pa _ (tag_of pa)).
  - apply elem_of_rank_tags. eauto.
  - by left.
Qed.

Lemma dd_update_add_size pa t (tag_aligns : list (Tag * gset PairedAlignment)) :
  Forall (fun kv => pa ∉ kv.2) tag_aligns ->
  sum_list_with size
    (dd_values (dd_update (fun s => s ∪ {[pa]}) ∅ t tag_aligns))
  = S (sum_list_with size (dd_values tag_aligns)).
Proof.
  unfold dd_values. induction 1 as [|[t0 s0] tag_aligns Hs0 _ IH];
    cbn [dd_update].
  - cbn [map snd sum_list_with].
    rewrite size_union by set_solver.
    rewrite size_empty, size_singleton. lia.
  - destruct (decide (t0 = t)) as [->|Hne]; cbn [map snd sum_list_with] in *.
    + rewrite size_union by set_solver. rewrite size_singleton. lia.
    + rewrite IH. lia.
Qed.

Lemma fold_assign_size group ranked tag_aligns :
  NoDup group ->
  (forall pa, pa ∈ group -> exists t, first_matching_tag pa ranked t) ->
  (forall pa, pa ∈ group -> Forall (fun kv => pa ∉ kv.2) tag_aligns) ->
  sum_list_with size
    (dd_values (fold_left (fun tag_aligns paired_align =>
                             assign_pair paired_align ranked tag_aligns)
                          group tag_aligns))
  = (sum_list_with size (dd_values tag_aligns) + length group)%nat.
Proof.
  revert tag_aligns.
  induction group as [|pa group IH]; intros tag_aligns Hnd Hmatch Hfresh.
  - simpl. lia.
  - apply NoDup_cons in Hnd as [Hpa Hnd]. simpl.
    destruct (Hmatch pa) as [t Ht]; [left|].
    destruct (assign_pair_spec pa ranked tag_aligns)
      as [(t' & _ & ->)|[Hall _]];
      [|destruct (first_matching_tag_not_all _ _ _ Ht Hall)].
    rewrite IH.
    + rewrite dd_update_add_size by (apply Hfresh; left). lia.
    + done.
    + intros pa' Hin. apply Hmatch. by right.
    + intros pa' Hin.
      apply (dd_update_Forall (fun s : gset PairedAlignment => pa' ∉ s)).
      * intros s Hs. set_solver.
      * set_solver.
      * apply Hfresh. by right.
Qed.

Lemma tag_families_size group ranked :
  NoDup group ->
  (forall pa, pa ∈ group -> exists t, first_matching_tag pa ranked t) ->
  sum_list_with size (_build_tag_families group ranked) = length group.
Proof.
  intros Hnd Hmatch. unfold _build_tag_families, build_tag_aligns.
  rewrite fold_assign_size; [done..|]. intros. apply Forall_nil_2.
Qed.

Lemma tag_families_cover group ranked pa :
  (exists family, family ∈ _build_tag_families group ranked /\ pa ∈ family)
  <-> pa ∈ group /\ exists t, first_matching_tag pa ranked t.
Proof.
  split.
  - intros (family & Hf & Hpa).
    destruct (elem_of_tag_families _ _ _ _ Hf Hpa) as (t & _ & Hin).
    apply elem_of_build_tag_aligns in Hin as [? ?]. eauto.
  - intros [Hin [t Ht]].
    pose proof (proj2 (elem_of_build_tag_aligns group ranked pa t)
                  (conj Hin Ht)) as Hpa.
    unfold tag_family in Hpa.
    destruct (dd_get t (build_tag_aligns group ranked)) as [family|] eqn:Hget;
      [|by apply not_elem_of_empty in Hpa].
    exists family. split; [|done].
    apply dd_get_Some_elem_of in Hget.
    unfold _build_tag_families, dd_values.
    by apply (list_elem_of_fmap_2 snd) in Hget.
Qed.

(** C10: when the ranking is the one [_rank_tags] computes for the same
    coordinate family, every pair has a matching tag (its own is ranked), so
    the no-match exit of the inner loop is never taken: the pairs in the
    returned families are exactly the pairs of the coordinate family, and the
    sizes of the families add up to its size. *)
Theorem own_ranking_drops_no_pair (coord_family : gset PairedAlignment) :
  let aligns := elements coord_family in
  let families := _build_tag_families aligns (_rank_tags aligns) in
  (forall paired_align, paired_align ∈ coord_family ->
     exists t, t ∈ _rank_tags aligns
               /\ first_matching_tag paired_align (_rank_tags aligns) t)
  /\ (forall paired_align,
        (exists family, family ∈ families /\ paired_align ∈ family)
        <-> paired_align ∈ coord_family)
  /\ sum_list_with size families = size coord_family.
Proof.
  intros aligns families.
  assert (forall pa, pa ∈ aligns ->
            exists t, first_matching_tag pa (_rank_tags aligns) t) as Hmatch.
  { intros pa Hin. by apply own_tag_matches. }
  split; [|split].
  - intros pa Hin. destruct (Hmatch pa) as [t Ht]; [by apply elem_of_elements|].
    exists t. split; [|done].
    destruct Ht as (before & after & Heq & _). rewrite Heq.
    apply elem_of_app. right. left.
  - intros pa. unfold families. rewrite tag_families_cover.
    unfold aligns at 1. rewrite elem_of_elements. split; [by intros [? _]|].
    intros Hin. split; [done|]. by apply Hmatch, elem_of_elements.
  - unfold families. rewrite tag_families_size; [done| |done].
    apply NoDup_elements.
Qed.

(** ** The example of four pairs (C2) *)

Lemma build_tag_aligns_single group ranked t :
  group <> [] ->
  (forall pa, pa ∈ group -> first_matching_tag pa ranked t) ->
  build_tag_aligns group ranked = [(t, list_to_set group)].
Proof.
  assert (forall group s,
    (forall pa, pa ∈ group -> first_matching_tag pa ranked t) ->
    fold_left (fun tag_aligns paired_align =>
                 assign_pair paired_align ranked tag_aligns) group [(t, s)]
    = [(t, s ∪ list_to_set group)]) as Hfold.
  { clear group. induction group as [|pa group IH]; intros s Hall.
    - simpl. by rewrite (right_id_L ∅ (∪)).
    - cbn [fold_left].
      destruct (assign_pair_spec pa ranked [(t, s)])
        as [(t' & Ht' & ->)|[Hall' _]].
      + rewrite (first_matching_tag_unique _ _ _ _ Ht' (Hall pa ltac:(by left))).
        cbn [dd_update]. rewrite decide_True by done.
        rewrite IH by (intros; apply Hall; by right).
        do 2 f_equal. rewrite list_to_set_cons. set_solver.
      + destruct (first_matching_tag_not_all _ _ _
                    (Hall pa ltac:(by left)) Hall'). }
  destruct group as [|pa group]; [done|]. intros _ Hall.
  unfold build_tag_aligns. cbn [fold_left].
  destruct (assign_pair_spec pa ranked []) as [(t' & Ht' & ->)|[Hall' _]].
  - rewrite (first_matching_tag_unique _ _ _ _ Ht' (Hall pa ltac:(by left))).
    cbn [dd_update]. rewrite Hfold by (intros; apply Hall; by right).
    do 2 f_equal. rewrite list_to_set_cons. set_solver.
  - destruct (first_matching_tag_not_all _ _ _
                (Hall pa ltac:(by left)) Hall').
Qed.

(** C2, as stated, fails on the sample family: its four pairs carry the tags
    (AAA,CCC) three times and (ATT,CCC) once, yet the partitioner returns
    one cluster of four pairs, and one representative pair is chosen. *)
Lemma sample_family_counterexample :
  size sample_coord_family = 4%nat
  /\ tag_of <$> sample_family
     = [tag_AAA_CCC; tag_AAA_CCC; tag_AAA_CCC; tag_ATT_CCC]
  /\ ~ (_rank_tags (elements sample_coord_family)
        = [tag_AAA_CCC; tag_ATT_CCC]
        /\ cluster_sizes
             (_build_tag_families (elements sample_coord_family)
                (_rank_tags (elements sample_coord_family)))
           ≡ₚ [3; 1]%nat
        /\ length <$> consensus_pairs sample_coord_family = Some 2%nat).
Proof.
  split; [vm_compute; reflexivity|]. split; [reflexivity|].
  intros (_ & _ & H). vm_compute in H. discriminate.
Qed.

(** C2, amended: for a coordinate group of exactly 4 pairs whose tags are
    (AAA,CCC) three times and (ATT,CCC) once, [_rank_tags] returns
    [(AAA,CCC), (ATT,CCC)]; [_build_tag_families] returns exactly one
    cluster, which holds all 4 pairs (the (ATT,CCC) pair matches the first
    ranked tag on its right prefix), and exactly 1 representative pair is
    emitted for the coordinate. *)
Theorem sample_tags_one_cluster (coord_family : gset PairedAlignment) :
  tag_of <$> elements coord_family
    ≡ₚ [tag_AAA_CCC; tag_AAA_CCC; tag_AAA_CCC; tag_ATT_CCC] ->
  size coord_family = 4%nat
  /\ _rank_tags (elements coord_family) = [tag_AAA_CCC; tag_ATT_CCC]
  /\ _build_tag_families (elements coord_family)
       (_rank_tags (elements coord_family)) = [coord_family]
  /\ exists read_pair,
       consensus_pairs coord_family = Some [read_pair]
       /\ read_pair ∈ coord_family
       /\ length (written [read_pair]) = 2%nat.
Proof.
  intros Htags.
  assert (length (elements coord_family) = 4%nat) as Hlen.
  { apply Permutation_length in Htags. by rewrite length_fmap in Htags. }
  assert (_rank_tags (elements coord_family) = [tag_AAA_CCC; tag_ATT_CCC])
    as Hrank.
  { rewrite <- (rank_tags_unique _ (_rank_tags sample_family)).
    - vm_compute. reflexivity.
    - apply rank_tags_NoDup.
    - intros t. rewrite elem_of_rank_tags_fmap. by rewrite Htags.
    - apply rank_tags_sorted_wrt. by rewrite Htags. }
  assert (_build_tag_families (elements coord_family)
            (_rank_tags (elements coord_family)) = [coord_family]) as Hfam.
  { rewrite Hrank. unfold _build_tag_families.
    rewrite (build_tag_aligns_single _ _ tag_AAA_CCC).
    - unfold dd_values. cbn [map snd]. by rewrite list_to_set_elements_L.
    - intros Hnil. by rewrite Hnil in Hlen.
    - intros pa Hin. exists [], [tag_ATT_CCC]. split; [done|].
      split; [apply Forall_nil_2|]. right.
      assert (tag_of pa ∈ tag_of <$> elements coord_family) as Ht
        by (by apply list_elem_of_fmap_2).
      rewrite Htags in Ht. unfold tag_of in Ht.
      repeat (apply elem_of_cons in Ht as [Ht|Ht]; [by injection Ht|]).
      inversion Ht. }
  split; [exact Hlen|]. split; [exact Hrank|]. split; [exact Hfam|].
  unfold consensus_pairs. rewrite Hfam.
  destruct (elements coord_family) as [|read_pair l] eqn:Hel; [done|].
  exists read_pair. split.
  - cbn [mapM]. unfold _build_consensus_pair. rewrite Hel. reflexivity.
  - split; [|reflexivity]. apply elem_of_elements. rewrite Hel. left.
Qed.

Lemma sample_tags_one_cluster_witness :
  tag_of <$> elements sample_coord_family
    ≡ₚ [tag_AAA_CCC; tag_AAA_CCC; tag_AAA_CCC; tag_ATT_CCC]
  /\ size sample_coord_family = 4%nat
  /\ _rank_tags (elements sample_coord_family) = [tag_AAA_CCC; tag_ATT_CCC]
  /\ _build_tag_families (elements sample_coord_family)
       (_rank_tags (elements sample_coord_family)) = [sample_coord_family].
Proof.
  assert (tag_of <$> elements sample_coord_family
          ≡ₚ [tag_AAA_CCC; tag_AAA_CCC; tag_AAA_CCC; tag_ATT_CCC]) as Htags.
  { assert (elements sample_coord_family ≡ₚ sample_family) as ->.
    { apply elements_list_to_set. vm_compute.
      repeat (constructor; [set_solver|]). constructor. }
    reflexivity. }
  split; [exact Htags|].
  destruct (sample_tags_one_cluster sample_coord_family Htags)
    as (H1 & H2 & H3 & _).
  exact (conj H1 (conj H2 H3)).
Defined.

(** ** Conservation of reads (C3) *)

Lemma pairs_in_lookup (families : gmap CoordinateKey (gset PairedAlignment))
    k g :
  families !! k = Some g ->
  pairs_in families ≡ₚ elements g ++ pairs_in (delete k families).
Proof.
  intros Hk. unfold pairs_in.
  by rewrite <- (map_to_list_delete families k g Hk).
Qed.

Lemma pairs_in_add (families : gmap CoordinateKey (gset PairedAlignment))
    k pa :
  pa ∉ default ∅ (families !! k) ->
  pairs_in (<[k := default ∅ (families !! k) ∪ {[pa]}]> families)
  ≡ₚ pa :: pairs_in families.
Proof.
  intros Hpa.
  assert (forall g : gset PairedAlignment,
            pa ∉ g -> elements (g ∪ {[pa]}) ≡ₚ pa :: elements g) as Hel.
  { intros g Hg. rewrite (comm_L (∪)). by apply elements_union_singleton. }
  destruct (families !! k) as [g|] eqn:Hk; simpl in *.
  - rewrite (pairs_in_lookup families k g Hk).
    rewrite <- insert_delete_eq. unfold pairs_in at 1.
    rewrite map_to_list_insert by apply lookup_delete_eq.
    rewrite bind_cons. simpl. by rewrite (Hel g Hpa).
  - unfold pairs_in. rewrite map_to_list_insert by done.
    rewrite bind_cons. simpl. rewrite (Hel ∅ Hpa), elements_empty. done.
Qed.

Lemma pending_insert (pairing : gmap string AlignedSegment) n r :
  pairing !! n = None -> pending (<[n := r]> pairing) ≡ₚ r :: pending pairing.
Proof.
  intros Hn. unfold pending. by rewrite map_to_list_insert.
Qed.

Lemma pending_delete (pairing : gmap string AlignedSegment) n r :
  pairing !! n = Some r -> pending pairing ≡ₚ r :: pending (delete n pairing).
Proof.
  intros Hn. unfold pending.
  by rewrite <- (map_to_list_delete pairing n r Hn).
Qed.

Lemma written_app ps1 ps2 : written (ps1 ++ ps2) = written ps1 ++ written ps2.
Proof. unfold written. apply bind_app. Qed.

Lemma written_length ps : length (written ps) = (2 * length ps)%nat.
Proof.
  unfold written. induction ps as [|pa ps IH]; [done|].
  rewrite bind_cons, length_app, IH. simpl. lia.
Qed.

Lemma yielded_pairs_app t1 t2 :
  yielded_pairs (t1 ++ t2) = yielded_pairs t1 ++ yielded_pairs t2.
Proof. unfold yielded_pairs, yields. by rewrite omap_app, bind_app. Qed.

Lemma yielded_pairs_length trace :
  length (yielded_pairs trace) = sum_list_with size (yields trace).
Proof.
  unfold yielded_pairs. induction (yields trace) as [|g gs IH]; [done|].
  rewrite bind_cons, length_app, IH. done.
Qed.

Lemma raises_app t1 t2 : raises (t1 ++ t2) = raises t1 || raises t2.
Proof. apply existsb_app. Qed.

Lemma name_count_snoc n l r :
  name_count n (l ++ [r])
  = (name_count n l + if decide (query_name r = n) then 1 else 0)%nat.
Proof. rewrite name_count_app, name_count_cons. unfold name_count. simpl. lia. Qed.

Lemma name_count_pos n l :
  name_count n l <> 0%nat -> exists r, r ∈ l /\ query_name r = n.
Proof.
  unfold name_count. intros Hc.
  destruct (filter (fun r => query_name r = n) l) as [|r l'] eqn:Hf; [done|].
  assert (r ∈ filter (fun r => query_name r = n) l) as Hin
    by (rewrite Hf; left).
  apply list_elem_of_filter in Hin as [? ?]. eauto.
Qed.

Lemma step_waiting st aseg :
  pairing_dict st !! query_name aseg = None ->
  step st aseg
  = (mkState (family_dict st) (<[query_name aseg := aseg]> (pairing_dict st))
             (coord_read_name_manifest st), Waiting).
Proof. intros H. unfold step. by rewrite H. Qed.

Lemma step_pairing st aseg mate :
  pairing_dict st !! query_name aseg = Some mate ->
  query_name aseg ∈ owed (coord_read_name_manifest st) (coordinate_key aseg) ->
  let key := coordinate_key aseg in
  let paired_align := mkPairedAlignment mate aseg in
  let family := default ∅ (family_dict st !! key) ∪ {[paired_align]} in
  let names' := owed (coord_read_name_manifest st) key ∖ {[query_name aseg]} in
  step st aseg
  = if decide (names' = ∅)
    then (mkState (delete key (<[key := family]> (family_dict st)))
                  (delete (query_name aseg) (pairing_dict st))
                  (<[key := names']> (coord_read_name_manifest st)),
          Yielded key paired_align family)
    else (mkState (<[key := family]> (family_dict st))
                  (delete (query_name aseg) (pairing_dict st))
                  (<[key := names']> (coord_read_name_manifest st)),
          Paired key paired_align).
Proof.
  intros H Hin. unfold step. rewrite H. cbv zeta.
  rewrite decide_True by done. done.
Qed.

Lemma written_Permutation ps1 ps2 : ps1 ≡ₚ ps2 -> written ps1 ≡ₚ written ps2.
Proof. intros Hp. unfold written. by rewrite Hp. Qed.

Lemma step_assembling_waiting input p q aseg tr st :
  well_formed input -> input = p ++ aseg :: q ->
  assembling input p tr st ->
  pairing_dict st !! query_name aseg = None ->
  assembling input (p ++ [aseg]) (tr ++ [(step st aseg).2]) (step st aseg).1.
Proof.
  intros Hwf Hinput [Hnr Hpair Hin Honly Hopen Hdone Hcons] Hlook.
  pose proof (Hpair (query_name aseg)) as Hc0. rewrite Hlook in Hc0.
  assert (aseg ∈ input) as Haseg.
  { rewrite Hinput. apply elem_of_app. right. left. }
  destruct (Hwf aseg Haseg) as [Hcount Hkey].
  assert (name_count (query_name aseg) p = 0%nat) as Hzero.
  { rewrite Hinput, name_count_app, name_count_cons in Hcount.
    rewrite decide_True in Hcount by done. lia. }
  rewrite step_waiting by done. simpl. split; simpl.
  - rewrite raises_app, Hnr. done.
  - intros n. rewrite name_count_snoc.
    destruct (decide (query_name aseg = n)) as [<-|Hne].
    + rewrite lookup_insert_eq. split; [done|lia].
    + rewrite lookup_insert_ne by done. specialize (Hpair n).
      destruct (pairing_dict st !! n); [destruct Hpair; split; [done|lia]|lia].
  - intros r Hr Hlt. apply Hin; [done|]. rewrite name_count_snoc in Hlt. lia.
  - intros k n Hn. destruct (Honly k n Hn) as [Hlt Hex]. split; [|done].
    rewrite name_count_snoc. destruct (decide (query_name aseg = n)) as [<-|Hne]; lia.
  - done.
  - intros k g pa Hk Hpa. pose proof (Hdone k g pa Hk Hpa) as H2.
    rewrite name_count_snoc, H2.
    destruct (decide (query_name aseg = query_name (right_alignment pa)))
      as [E|Hne]; [|lia].
    rewrite <- E in H2. lia.
  - rewrite pending_insert by done.
    rewrite <- Hcons. rewrite <- Permutation_middle.
    rewrite (Permutation_app_comm _ [aseg]). simpl. 
    rewrite yielded_pairs_app. unfold yielded_pairs at 2. simpl. rewrite (right_id_L [] (++)). done.
Qed.

Lemma step_assembling_pairing input p q aseg tr st mate :
  well_formed input -> input = p ++ aseg :: q ->
  assembling input p tr st ->
  pairing_dict st !! query_name aseg = Some mate ->
  assembling input (p ++ [aseg]) (tr ++ [(step st aseg).2]) (step st aseg).1.
Proof.
  intros Hwf Hinput [Hnr Hpair Hin Honly Hopen Hdone Hcons] Hlook.
  pose proof (Hpair (query_name aseg)) as Hc1. rewrite Hlook in Hc1.
  destruct Hc1 as [Hmate Hone].
  assert (aseg ∈ input) as Haseg.
  { rewrite Hinput. apply elem_of_app. right. left. }
  destruct (Hwf aseg Haseg) as [Hcount Hkey].
  assert (query_name aseg
          ∈ owed (coord_read_name_manifest st) (coordinate_key aseg)) as Hmem
    by (apply Hin; [done|lia]).
  rewrite (step_pairing st aseg mate Hlook Hmem). cbv zeta.
  set (key := coordinate_key aseg) in *.
  set (pa := mkPairedAlignment mate aseg).
  set (family := default ∅ (family_dict st !! key) ∪ {[pa]}).
  set (names' := owed (coord_read_name_manifest st) key ∖ {[query_name aseg]}).
  assert (pa ∉ default ∅ (family_dict st !! key)) as Hfresh.
  { destruct (family_dict st !! key) as [g|] eqn:Hg; simpl;
      [|apply not_elem_of_empty].
    intros Hpa. pose proof (Hdone key g pa Hg Hpa) as H2. simpl in H2. lia. }
  assert (forall n,
    match delete (query_name aseg) (pairing_dict st) !! n with
    | Some r => query_name r = n /\ name_count n (p ++ [aseg]) = 1%nat
    | None => name_count n (p ++ [aseg]) <> 1%nat
    end) as Hpair'.
  { intros n. rewrite name_count_snoc.
    destruct (decide (query_name aseg = n)) as [<-|Hne].
    - rewrite lookup_delete_eq. lia.
    - rewrite lookup_delete_ne by done. specialize (Hpair n).
      destruct (pairing_dict st !! n); [destruct Hpair; split; [done|lia]|lia]. }
  assert (forall r, r ∈ input ->
    (name_count (query_name r) (p ++ [aseg]) < 2)%nat ->
    query_name r ∈ owed (<[key := names']> (coord_read_name_manifest st))
                       (coordinate_key r)) as Hin'.
  { intros r Hr Hlt. rewrite name_count_snoc in Hlt.
    destruct (decide (query_name aseg = query_name r)) as [E|Hne];
      [rewrite <- E in Hlt; lia|].
    assert (name_count (query_name r) p < 2)%nat as Hlt' by lia.
    specialize (Hin r Hr Hlt').
    destruct (decide (key = coordinate_key r)) as [Hk|Hk].
    - rewrite <- Hk, owed_insert_eq. rewrite <- Hk in Hin.
      apply elem_of_difference. split; [done|].
      rewrite elem_of_singleton. congruence.
    - by rewrite owed_insert_ne. }
  assert (forall k n,
    n ∈ owed (<[key := names']> (coord_read_name_manifest st)) k ->
    (name_count n (p ++ [aseg]) < 2)%nat
    /\ exists r, r ∈ input /\ query_name r = n /\ coordinate_key r = k)
    as Honly'.
  { intros k n Hn.
    assert (n ∈ owed (coord_read_name_manifest st) k
            /\ (k = key -> n <> query_name aseg)) as [Hn0 Hnk].
    { destruct (decide (key = k)) as [Hk|Hk].
      - rewrite <- Hk, owed_insert_eq in Hn.
        apply elem_of_difference in Hn as [Hn Hne].
        rewrite elem_of_singleton in Hne. by rewrite <- Hk.
      - rewrite owed_insert_ne in Hn by done. split; [done|congruence]. }
    destruct (Honly k n Hn0) as [Hlt (r & Hr & Hrn & Hrk)].
    split; [|eauto]. rewrite name_count_snoc.
    destruct (decide (query_name aseg = n)) as [E|Hne]; [|lia].
    exfalso. apply Hnk; [|done]. rewrite <- Hrk. apply Hkey; [done|congruence]. }
  assert (forall k g pa',
    <[key := family]> (family_dict st) !! k = Some g -> pa' ∈ g ->
    name_count (query_name (right_alignment pa')) (p ++ [aseg]) = 2%nat)
    as Hdone'.
  { intros k g pa' Hk Hpa'. rewrite name_count_snoc.
    assert (pa' = pa \/ exists g0, family_dict st !! k = Some g0 /\ pa' ∈ g0)
      as [->|(g0 & Hg0 & Hpa0)].
    { destruct (decide (key = k)) as [E|Hne].
      - rewrite <- E in *. rewrite lookup_insert_eq in Hk. injection Hk as <-.
        unfold family in Hpa'.
        apply elem_of_union in Hpa' as [Hpa'|Hpa'];
          [|left; by apply elem_of_singleton in Hpa'].
        right. destruct (family_dict st !! key) as [g0|]; [eauto|].
        by apply not_elem_of_empty in Hpa'.
      - rewrite lookup_insert_ne in Hk by done. eauto. }
    - simpl. rewrite decide_True by done. lia.
    - pose proof (Hdone k g0 pa' Hg0 Hpa0) as H2. rewrite H2.
      destruct (decide (query_name aseg = query_name (right_alignment pa')))
        as [E|Hne]; [|lia].
      rewrite <- E in H2. lia. }
  assert (forall yp' op',
    yp' ++ op' ≡ₚ pa :: (yielded_pairs tr ++ pairs_in (family_dict st)) ->
    written (yp' ++ op') ++ pending (delete (query_name aseg) (pairing_dict st))
    ≡ₚ p ++ [aseg]) as Hcons'.
  { intros yp' op' Hperm.
    rewrite (written_Permutation _ _ Hperm), <- Hcons.
    rewrite (pending_delete _ _ _ Hlook).
    set (W := written (yielded_pairs tr ++ pairs_in (family_dict st))).
    set (pend' := pending (delete (query_name aseg) (pairing_dict st))).
    change (mate :: aseg :: (W ++ pend') ≡ₚ (W ++ mate :: pend') ++ [aseg]).
    etrans; [|apply Permutation_app_comm].
    etrans; [apply Permutation_swap|].
    apply Permutation_skip, Permutation_middle. }
  pose proof (pairs_in_add (family_dict st) key pa Hfresh) as Hadd.
  fold family in Hadd.
  destruct (decide (names' = ∅)) as [Hempty|Hnonempty]; simpl; split; simpl;
    try done.
  - rewrite raises_app, Hnr. done.
  - intros k [g Hg]. destruct (decide (key = k)) as [<-|Hne].
    + by rewrite lookup_delete_eq in Hg.
    + rewrite lookup_delete_ne, lookup_insert_ne in Hg by done.
      rewrite owed_insert_ne by done. apply Hopen. eauto.
  - intros k g pa' Hk Hpa'. apply (Hdone' k g pa'); [|done].
    destruct (decide (key = k)) as [<-|Hne];
      [by rewrite lookup_delete_eq in Hk|by rewrite lookup_delete_ne in Hk].
  - apply Hcons'. rewrite yielded_pairs_app.
    unfold yielded_pairs at 2. simpl. rewrite (right_id_L [] (++)).
    rewrite <- app_assoc.
    rewrite <- (pairs_in_lookup (<[key := family]> (family_dict st)) key family)
      by apply lookup_insert_eq.
    rewrite Hadd. by rewrite <- Permutation_middle.
  - rewrite raises_app, Hnr. done.
  - intros k [g Hg]. destruct (decide (key = k)) as [<-|Hne].
    + by rewrite owed_insert_eq.
    + rewrite lookup_insert_ne in Hg by done.
      rewrite owed_insert_ne by done. apply Hopen. eauto.
  - apply Hcons'. rewrite yielded_pairs_app.
    unfold yielded_pairs at 2. simpl. rewrite (right_id_L [] (++)).
    rewrite Hadd. by rewrite <- Permutation_middle.
Qed.

Lemma step_assembling input p q aseg tr st :
  well_formed input -> input = p ++ aseg :: q ->
  assembling input p tr st ->
  assembling input (p ++ [aseg]) (tr ++ [(step st aseg).2]) (step st aseg).1.
Proof.
  intros Hwf Hinput Hasm.
  destruct (pairing_dict st !! query_name aseg) as [mate|] eqn:Hlook.
  - by eapply step_assembling_pairing.
  - by eapply step_assembling_waiting.
Qed.

Lemma run_assembling input q :
  well_formed input ->
  forall p tr st, input = p ++ q -> assembling input p tr st ->
    assembling input input (tr ++ (run st q).1) (run st q).2.
Proof.
  intros Hwf. induction q as [|aseg q IH]; intros p tr st Hinput Hasm.
  - simpl. rewrite !(right_id_L [] (++)) in *. by subst p.
  - pose proof (step_assembling input p q aseg tr st Hwf Hinput Hasm) as Hstep.
    assert (is_raised (step st aseg).2 = false) as Hnr.
    { pose proof (asm_no_raise _ _ _ _ Hstep) as H.
      rewrite raises_app in H. apply orb_false_iff in H as [_ H].
      unfold raises in H. simpl in H. by rewrite orb_false_r in H. }
    rewrite run_cons, Hnr. cbn [fst snd].
    rewrite (cons_middle _ tr), app_assoc.
    apply (IH (p ++ [aseg])); [|done].
    by rewrite <- app_assoc.
Qed.

Lemma assembling_init input :
  assembling input [] [] (mkState ∅ ∅ (coord_manifest input)).
Proof.
  split; simpl.
  - done.
  - intros n. rewrite lookup_empty. done.
  - intros r Hr _. apply coord_manifest_spec. eauto.
  - intros k n Hn. split; [unfold name_count; simpl; lia|].
    by apply coord_manifest_spec.
  - intros k [g Hg]. by rewrite lookup_empty in Hg.
  - intros k g pa Hg. by rewrite lookup_empty in Hg.
  - unfold pairs_in, pending. by rewrite !map_to_list_empty.
Qed.

(** When a well-formed input is exhausted nothing is left behind. *)
Lemma assembling_final input tr st :
  well_formed input -> assembling input input tr st ->
  family_dict st = ∅ /\ pairing_dict st = ∅
  /\ written (yielded_pairs tr) ≡ₚ input.
Proof.
  intros Hwf [Hnr Hpair Hin Honly Hopen Hdone Hcons].
  assert (forall k, owed (coord_read_name_manifest st) k = ∅) as Hempty.
  { intros k. apply set_eq. intros n. split; [|by intros ?%not_elem_of_empty].
    intros Hn. destruct (Honly k n Hn) as [Hlt (r & Hr & <- & _)].
    destruct (Hwf r Hr) as [Hc _]. lia. }
  assert (family_dict st = ∅) as Hfam.
  { apply map_eq. intros k. rewrite lookup_empty.
    destruct (family_dict st !! k) as [g|] eqn:Hg; [|done].
    destruct (Hopen k); [eauto|apply Hempty]. }
  assert (pairing_dict st = ∅) as Hpairing.
  { apply map_eq. intros n. rewrite lookup_empty. specialize (Hpair n).
    destruct (pairing_dict st !! n) as [r|]; [|done].
    destruct Hpair as [_ Hc].
    destruct (name_count_pos n input) as (r' & Hr' & <-); [lia|].
    destruct (Hwf r' Hr') as [Hc' _]. lia. }
  split; [done|]. split; [done|].
  rewrite Hfam, Hpairing in Hcons. unfold pairs_in, pending in Hcons.
  rewrite !map_to_list_empty in Hcons. simpl in Hcons.
  by rewrite !(right_id_L [] (++)) in Hcons.
Qed.

(** C3: on a well-formed input the pass raises nothing, the reads of the
    pairs in the yielded groups are, with multiplicity, exactly the input
    reads (each read is in one pair of one group), so the groups hold as
    many reads as the input; nothing is left in [family_dict] or
    [pairing_dict]. *)
Theorem well_formed_input_consumed (input : list AlignedSegment) :
  well_formed input ->
  raises (families_of input).1 = false
  /\ written (yielded_pairs (families_of input).1) ≡ₚ input
  /\ (2 * sum_list_with size (yields (families_of input).1))%nat = length input
  /\ family_dict (families_of input).2 = ∅
  /\ pairing_dict (families_of input).2 = ∅.
Proof.
  intros Hwf.
  pose proof (run_assembling input input Hwf [] []
                (mkState ∅ ∅ (coord_manifest input)) eq_refl
                (assembling_init input)) as Hasm.
  rewrite app_nil_l in Hasm.
  destruct (assembling_final _ _ _ Hwf Hasm) as (Hfam & Hpairing & Hperm).
  split; [exact (asm_no_raise _ _ _ _ Hasm)|]. split; [exact Hperm|].
  split; [|done].
  rewrite <- yielded_pairs_length, <- written_length.
  by apply Permutation_length.
Qed.

Lemma two_pairs_well_formed : well_formed two_pairs_input.
Proof.
  intros r Hin. apply list_elem_of_In in Hin. simpl in Hin.
  destruct Hin as [<-|[<-|[<-|[<-|[]]]]]; (split; [reflexivity|]);
    intros r' Hin'; apply list_elem_of_In in Hin'; simpl in Hin';
    destruct Hin' as [<-|[<-|[<-|[<-|[]]]]]; intros Hname;
    solve [reflexivity | discriminate Hname].
Qed.

Lemma well_formed_input_consumed_witness :
  well_formed two_pairs_input
  /\ raises (families_of two_pairs_input).1 = false
  /\ written (yielded_pairs (families_of two_pairs_input).1)
     ≡ₚ two_pairs_input
  /\ (2 * sum_list_with size (yields (families_of two_pairs_input).1))%nat
     = length two_pairs_input.
Proof.
  split; [exact two_pairs_well_formed|].
  destruct (well_formed_input_consumed two_pairs_input two_pairs_well_formed)
    as (H1 & H2 & H3 & _).
  exact (conj H1 (conj H2 H3)).
Defined.

(** * Further properties of the code *)

(** ** The manifest of the first pass *)

Lemma manifest_fold_dom (lw_aligns : list LightweightAlignment.t)
    (acc : gmap CoordinateKey (gset string)) k :
  k ∈ dom (fold_left (fun af_dict lwa =>
             let k := LightweightAlignment.key lwa in
             <[k := default ∅ (af_dict !! k) ∪ {[LightweightAlignment.name lwa]}]>
               af_dict) lw_aligns acc)
  <-> k ∈ dom acc
      \/ exists lwa, lwa ∈ lw_aligns /\ LightweightAlignment.key lwa = k.
Proof.
  revert acc. induction lw_aligns as [|lwa rest IH]; intros acc; simpl.
  - split; [by left|]. intros [?|(lwa & Hin & _)]; [done|inversion Hin].
  - rewrite IH, dom_insert_L, elem_of_union, elem_of_singleton. split.
    + intros [[->|?]|(lwa' & Hin & Hk)].
      * right. exists lwa. split; [left|done].
      * by left.
      * right. exists lwa'. split; [by right|done].
    + intros [?|(lwa' & Hin & Hk)]; [by left; right|].
      apply elem_of_cons in Hin as [->|Hin]; [by left; left|].
      right. eauto.
Qed.

Lemma manifest_lookup_None lw_aligns k :
  _build_coordinate_read_name_manifest lw_aligns !! k = None
  <-> forall lwa, lwa ∈ lw_aligns -> LightweightAlignment.key lwa <> k.
Proof.
  rewrite <- not_elem_of_dom.
  unfold _build_coordinate_read_name_manifest. rewrite manifest_fold_dom.
  rewrite dom_empty_L. split.
  - intros Hn lwa Hin Hk. apply Hn. right. eauto.
  - intros Hn [Hin|(lwa & Hin & Hk)]; [by apply not_elem_of_empty in Hin|].
    by apply (Hn lwa).
Qed.

Lemma manifest_lookup_Some lw_aligns k names n :
  _build_coordinate_read_name_manifest lw_aligns !! k = Some names ->
  n ∈ names
  <-> exists lwa, lwa ∈ lw_aligns /\ LightweightAlignment.name lwa = n
                  /\ LightweightAlignment.key lwa = k.
Proof.
  intros Hk. unfold _build_coordinate_read_name_manifest in Hk.
  pose proof (manifest_fold_spec lw_aligns ∅ n k) as Hspec.
  unfold owed in Hspec. rewrite Hk, lookup_empty in Hspec. simpl in Hspec.
  rewrite Hspec. split; [|by right].
  intros [Hin|?]; [|done]. by apply not_elem_of_empty in Hin.
Qed.

(** X1: the manifest has an entry exactly for the keys of the reads it was
    built from; an entry is never empty and holds exactly the names of the
    reads with that key. *)
Theorem manifest_entries (lw_aligns : list LightweightAlignment.t)
    (k : CoordinateKey) :
  (_build_coordinate_read_name_manifest lw_aligns !! k = None
   <-> forall lwa, lwa ∈ lw_aligns -> LightweightAlignment.key lwa <> k)
  /\ forall names,
       _build_coordinate_read_name_manifest lw_aligns !! k = Some names ->
       names <> ∅
       /\ forall n, n ∈ names
            <-> exists lwa, lwa ∈ lw_aligns
                            /\ LightweightAlignment.name lwa = n
                            /\ LightweightAlignment.key lwa = k.
Proof.
  split; [apply manifest_lookup_None|].
  intros names Hk. split; [|intros n; by apply manifest_lookup_Some].
  assert (~ forall lwa, lwa ∈ lw_aligns -> LightweightAlignment.key lwa <> k)
    as Hsome.
  { intros Hall. apply manifest_lookup_None in Hall. congruence. }
  intros ->. apply Hsome. intros lwa Hin Hkey.
  apply (not_elem_of_empty (C:=gset string) (LightweightAlignment.name lwa)).
  apply (manifest_lookup_Some lw_aligns k ∅ _ Hk). eauto.
Qed.

(** X2: the manifest only depends on which (name, key) records occur in the
    input of the first pass, not on their order or on how often they occur. *)
Theorem manifest_order_independent
    (lw_aligns1 lw_aligns2 : list LightweightAlignment.t) :
  (forall lwa, lwa ∈ lw_aligns1 <-> lwa ∈ lw_aligns2) ->
  _build_coordinate_read_name_manifest lw_aligns1
  = _build_coordinate_read_name_manifest lw_aligns2.
Proof.
  intros Hsame. apply map_eq. intros k.
  destruct (_build_coordinate_read_name_manifest lw_aligns1 !! k)
    as [names1|] eqn:H1;
    destruct (_build_coordinate_read_name_manifest lw_aligns2 !! k)
    as [names2|] eqn:H2.
  - f_equal. apply set_eq. intros n.
    rewrite (manifest_lookup_Some _ _ _ n H1), (manifest_lookup_Some _ _ _ n H2).
    by setoid_rewrite Hsame.
  - exfalso. pose proof (proj1 (manifest_lookup_None _ _) H2) as Hno.
    assert (_build_coordinate_read_name_manifest lw_aligns1 !! k = None)
      as Hn; [|congruence].
    apply manifest_lookup_None. intros lwa Hin. apply Hno. by apply Hsame.
  - exfalso. pose proof (proj1 (manifest_lookup_None _ _) H1) as Hno.
    assert (_build_coordinate_read_name_manifest lw_aligns2 !! k = None)
      as Hn; [|congruence].
    apply manifest_lookup_None. intros lwa Hin. apply Hno. by apply Hsame.
  - done.
Qed.

Lemma manifest_order_independent_witness :
  let lw := map LightweightAlignment.__init__ two_pairs_input in
  (forall lwa, lwa ∈ lw <-> lwa ∈ reverse lw ++ lw)
  /\ _build_coordinate_read_name_manifest lw
     = _build_coordinate_read_name_manifest (reverse lw ++ lw).
Proof.
  intros lw.
  assert (forall lwa, lwa ∈ lw <-> lwa ∈ reverse lw ++ lw) as Hsame.
  { intros lwa. rewrite elem_of_app, elem_of_reverse. tauto. }
  split; [exact Hsame|]. exact (manifest_order_independent _ _ Hsame).
Defined.

(** ** What the generator pairs and when it yields *)

Lemma step_raising st aseg mate :
  pairing_dict st !! query_name aseg = Some mate ->
  query_name aseg ∉ owed (coord_read_name_manifest st) (coordinate_key aseg) ->
  step st aseg
  = (mkState (<[coordinate_key aseg :=
                  default ∅ (family_dict st !! coordinate_key aseg)
                  ∪ {[mkPairedAlignment mate aseg]}]> (family_dict st))
             (delete (query_name aseg) (pairing_dict st))
             (<[coordinate_key aseg :=
                  owed (coord_read_name_manifest st) (coordinate_key aseg)]>
                (coord_read_name_manifest st)),
     Raised (coordinate_key aseg) (mkPairedAlignment mate aseg)).
Proof.
  intros H Hin. unfold step. rewrite H. cbv zeta.
  by rewrite decide_False by done.
Qed.

Lemma mates_in_app segs q k pa : mates_in segs k pa -> mates_in (segs ++ q) k pa.
Proof.
  intros (Hn & Hk & i & j & Hij & Hi & Hj). split; [done|]. split; [done|].
  exists i, j. split; [done|]. split; by apply lookup_app_l_Some.
Qed.

Lemma mates_in_new p mate aseg :
  query_name mate = query_name aseg ->
  (exists i, p !! i = Some mate) ->
  mates_in (p ++ [aseg]) (coordinate_key aseg) (mkPairedAlignment mate aseg).
Proof.
  intros Hn [i Hi]. split; [done|]. split; [done|].
  exists i, (length p). split; [by eapply lookup_lt_Some|]. split.
  - by apply lookup_app_l_Some.
  - simpl. by rewrite list_lookup_middle.
Qed.

(** The names of the pairs of the family of [aseg]'s key, after the pair
    completed by [aseg] was added and its name removed from the manifest. *)
Lemma step_family_names manifest0 p st aseg mate n :
  pairing_inv manifest0 p st ->
  query_name aseg ∈ owed (coord_read_name_manifest st) (coordinate_key aseg) ->
  (exists pa, pa ∈ default ∅ (family_dict st !! coordinate_key aseg)
                   ∪ {[mkPairedAlignment mate aseg]}
              /\ query_name (right_alignment pa) = n)
  <-> n ∈ owed manifest0 (coordinate_key aseg)
      /\ n ∉ owed (coord_read_name_manifest st) (coordinate_key aseg)
             ∖ {[query_name aseg]}.
Proof.
  intros [_ _ Hsub Hnames Hclosed] Hmem.
  set (key := coordinate_key aseg) in *.
  assert ((exists pa, pa ∈ default ∅ (family_dict st !! key)
                      /\ query_name (right_alignment pa) = n)
          <-> n ∈ owed manifest0 key
              /\ n ∉ owed (coord_read_name_manifest st) key) as Hold.
  { destruct (family_dict st !! key) as [g|] eqn:Hg; simpl.
    - by apply Hnames.
    - split; [intros (pa & Hpa & _); by apply not_elem_of_empty in Hpa|].
      intros [H0 Hn]. destruct (Hclosed key Hg) as [E|E].
      + by rewrite E in Hn.
      + rewrite E in Hmem. by apply not_elem_of_empty in Hmem. }
  rewrite elem_of_difference, elem_of_singleton. split.
  - intros (pa & [Hpa| ->%elem_of_singleton]%elem_of_union & Hn).
    + destruct (proj1 Hold) as [H0 H1]; [eauto|]. split; [done|]. tauto.
    + simpl in Hn. subst n. split; [by apply Hsub|]. tauto.
  - intros [H0 Hn].
    destruct (decide (n = query_name aseg)) as [->|Hne].
    + exists (mkPairedAlignment mate aseg). split; [|done].
      apply elem_of_union. right. by apply elem_of_singleton.
    + destruct (proj2 Hold) as (pa & Hpa & Hpn); [split; [done|tauto]|].
      exists pa. split; [|done]. apply elem_of_union. by left.
Qed.

Lemma step_family_mates manifest0 p st aseg mate pa :
  pairing_inv manifest0 p st ->
  pairing_dict st !! query_name aseg = Some mate ->
  pa ∈ default ∅ (family_dict st !! coordinate_key aseg)
       ∪ {[mkPairedAlignment mate aseg]} ->
  mates_in (p ++ [aseg]) (coordinate_key aseg) pa.
Proof.
  intros [Hpair Hfam _ _ _] Hlook [Hpa| ->%elem_of_singleton]%elem_of_union.
  - destruct (family_dict st !! coordinate_key aseg) as [g|] eqn:Hg;
      [|by apply not_elem_of_empty in Hpa].
    apply mates_in_app. by eapply Hfam.
  - destruct (Hpair _ _ Hlook) as [Hn Hi]. by apply mates_in_new.
Qed.

Lemma step_good_outcome manifest0 p st aseg :
  pairing_inv manifest0 p st ->
  good_outcome (p ++ [aseg]) manifest0 (step st aseg).2.
Proof.
  intros Hinv.
  destruct (pairing_dict st !! query_name aseg) as [mate|] eqn:Hlook;
    [|by rewrite step_waiting].
  destruct (decide (query_name aseg
      ∈ owed (coord_read_name_manifest st) (coordinate_key aseg)))
    as [Hmem|Hmem].
  - rewrite (step_pairing st aseg mate Hlook Hmem). cbv zeta.
    assert (mates_in (p ++ [aseg]) (coordinate_key aseg)
              (mkPairedAlignment mate aseg)) as Hnew.
    { eapply step_family_mates; [done..|].
      apply elem_of_union. right. by apply elem_of_singleton. }
    destruct (decide (_ = ∅)) as [Hempty|Hnonempty]; simpl; [|done].
    split; [apply elem_of_union; right; by apply elem_of_singleton|].
    split; [intros pa' Hpa'; by eapply step_family_mates|].
    intros n.
    rewrite (step_family_names manifest0 p st aseg mate n Hinv Hmem).
    rewrite Hempty. split; [|by intros [? _]].
    intros H0. split; [done|apply not_elem_of_empty].
  - rewrite (step_raising st aseg mate Hlook Hmem). simpl.
    eapply step_family_mates; [done..|].
    apply elem_of_union. right. by apply elem_of_singleton.
Qed.

Lemma step_pairing_inv manifest0 p st aseg :
  pairing_inv manifest0 p st ->
  is_raised (step st aseg).2 = false ->
  pairing_inv manifest0 (p ++ [aseg]) (step st aseg).1.
Proof.
  intros Hinv Hnr.
  pose proof Hinv as [Hpair Hfam Hsub Hnames Hclosed].
  destruct (pairing_dict st !! query_name aseg) as [mate|] eqn:Hlook.
  2:{ rewrite step_waiting by done. split; simpl; try done.
      - intros n r. destruct (decide (query_name aseg = n)) as [<-|Hne].
        + rewrite lookup_insert_eq. intros [= <-]. split; [done|].
          exists (length p). by rewrite list_lookup_middle.
        + rewrite lookup_insert_ne by done. intros Hr.
          destruct (Hpair n r Hr) as [? [i Hi]]. split; [done|].
          exists i. by apply lookup_app_l_Some.
      - intros k g pa Hg Hpa. apply mates_in_app. by eapply Hfam. }
  destruct (decide (query_name aseg
      ∈ owed (coord_read_name_manifest st) (coordinate_key aseg)))
    as [Hmem|Hmem];
    [|by rewrite (step_raising st aseg mate Hlook Hmem) in Hnr].
  clear Hnr. rewrite (step_pairing st aseg mate Hlook Hmem). cbv zeta.
  set (key := coordinate_key aseg) in *.
  set (pa := mkPairedAlignment mate aseg).
  set (family := default ∅ (family_dict st !! key) ∪ {[pa]}).
  set (names' := owed (coord_read_name_manifest st) key ∖ {[query_name aseg]}).
  assert (forall n r,
    delete (query_name aseg) (pairing_dict st) !! n = Some r ->
    query_name r = n /\ exists i, (p ++ [aseg]) !! i = Some r) as Hpair'.
  { intros n r Hr. apply lookup_delete_Some in Hr as [_ Hr].
    destruct (Hpair n r Hr) as [? [i Hi]]. split; [done|].
    exists i. by apply lookup_app_l_Some. }
  assert (forall k g pa', <[key := family]> (family_dict st) !! k = Some g ->
            pa' ∈ g -> mates_in (p ++ [aseg]) k pa') as Hfam'.
  { intros k g pa' Hg Hpa'. destruct (decide (key = k)) as [E|Hne].
    - rewrite <- E in *. rewrite lookup_insert_eq in Hg. injection Hg as <-.
      by eapply step_family_mates.
    - rewrite lookup_insert_ne in Hg by done.
      apply mates_in_app. by eapply Hfam. }
  assert (forall k n,
    n ∈ owed (<[key := names']> (coord_read_name_manifest st)) k ->
    n ∈ owed manifest0 k) as Hsub'.
  { intros k n Hn. apply Hsub. destruct (decide (key = k)) as [E|Hne].
    - rewrite <- E in *. rewrite owed_insert_eq in Hn.
      by apply elem_of_difference in Hn as [? _].
    - by rewrite owed_insert_ne in Hn. }
  assert (forall k g n, k <> key -> family_dict st !! k = Some g ->
    (exists pa, pa ∈ g /\ query_name (right_alignment pa) = n)
    <-> n ∈ owed manifest0 k
        /\ n ∉ owed (<[key := names']> (coord_read_name_manifest st)) k)
    as Hother.
  { intros k g n Hne Hg. rewrite owed_insert_ne by done. by apply Hnames. }
  assert (forall k, k <> key -> family_dict st !! k = None ->
    owed (<[key := names']> (coord_read_name_manifest st)) k = owed manifest0 k
    \/ owed (<[key := names']> (coord_read_name_manifest st)) k = ∅)
    as Hclosed'.
  { intros k Hne Hg. rewrite owed_insert_ne by done. by apply Hclosed. }
  destruct (decide (names' = ∅)) as [Hempty|Hnonempty]; simpl; split; simpl;
    try done.
  - intros k g pa' Hg Hpa'. apply lookup_delete_Some in Hg as [_ Hg]. eauto.
  - intros k g n Hg. apply lookup_delete_Some in Hg as [Hne Hg].
    rewrite lookup_insert_ne in Hg by done. by apply Hother.
  - intros k Hg. destruct (decide (key = k)) as [E|Hne].
    + right. by rewrite <- E, owed_insert_eq.
    + rewrite lookup_delete_ne, lookup_insert_ne in Hg by done.
      by apply Hclosed'.
  - intros k g n Hg. destruct (decide (key = k)) as [E|Hne].
    + rewrite <- E in *. rewrite lookup_insert_eq in Hg. injection Hg as <-.
      rewrite owed_insert_eq.
      by apply (step_family_names manifest0 p st aseg mate n).
    + rewrite lookup_insert_ne in Hg by done. by apply Hother.
  - intros k Hg. destruct (decide (key = k)) as [E|Hne].
    + rewrite <- E in *. by rewrite lookup_insert_eq in Hg.
    + rewrite lookup_insert_ne in Hg by done. by apply Hclosed'.
Qed.

Lemma good_outcome_app segs q manifest0 o :
  good_outcome segs manifest0 o -> good_outcome (segs ++ q) manifest0 o.
Proof.
  destruct o as [|k pa|k pa g|k pa]; simpl; [done| | |];
    try apply mates_in_app.
  intros (Hpa & Hg & Hn). split; [done|]. split; [|done].
  intros pa' Hpa'. by apply mates_in_app, Hg.
Qed.

Lemma run_good_outcomes manifest0 q :
  forall p st, pairing_inv manifest0 p st ->
    Forall (good_outcome (p ++ q) manifest0) (run st q).1.
Proof.
  induction q as [|aseg q IH]; intros p st Hinv; [apply Forall_nil_2|].
  pose proof (step_good_outcome manifest0 p st aseg Hinv) as Hgood.
  apply (good_outcome_app _ q) in Hgood. rewrite <- app_assoc in Hgood.
  rewrite run_cons. destruct (is_raised (step st aseg).2) eqn:Hr; simpl.
  - apply Forall_cons_2; [done|apply Forall_nil_2].
  - apply Forall_cons_2; [done|].
    rewrite (cons_middle aseg p q), app_assoc. apply IH.
    by apply step_pairing_inv.
Qed.

Lemma pairing_inv_init manifest0 :
  pairing_inv manifest0 [] (mkState ∅ ∅ manifest0).
Proof.
  split; simpl; try (intros; by rewrite lookup_empty in *); try done.
  intros k _. by left.
Qed.

Lemma families_good_outcomes segs manifest0 :
  Forall (good_outcome segs manifest0)
         (_build_coordinate_families segs manifest0).1.
Proof.
  apply (run_good_outcomes manifest0 segs [] _ (pairing_inv_init manifest0)).
Qed.

(** X3: every pair the generator completes joins two reads of the input
    with the same name, the one met first as left mate, and is filed under
    the coordinate key of the one met second; every member of a yielded
    family is such a pair filed under the yielded key, and the pair that
    completed the family is one of them. *)
Theorem completed_pairs_are_mates (aligned_segments : list AlignedSegment)
    (manifest : gmap CoordinateKey (gset string)) (o : outcome)
    (k : CoordinateKey) (pa : PairedAlignment) :
  o ∈ (_build_coordinate_families aligned_segments manifest).1 ->
  inserted_key o = Some k ->
  completed_pair o = Some pa ->
  mates_in aligned_segments k pa
  /\ forall g, yielded_family o = Some g ->
       pa ∈ g /\ forall pa', pa' ∈ g -> mates_in aligned_segments k pa'.
Proof.
  intros Hin Hk Hpa.
  pose proof (families_good_outcomes aligned_segments manifest) as Hall.
  rewrite Forall_forall in Hall. specialize (Hall o Hin).
  destruct o as [|k' pa'|k' pa' g'|k' pa']; simpl in *; try discriminate;
    injection Hk as ->; injection Hpa as ->.
  - split; [done|]. intros g [=].
  - destruct Hall as (Hpa & Hg & _). split; [by apply Hg|].
    intros g [= <-]. done.
  - split; [done|]. intros g [=].
Qed.

(** X4: a family is yielded for a key only when it holds a pair for every
    name the manifest owed at that key, and it holds pairs of no other
    name: the names of its pairs are exactly the names owed at the key when
    the pass started. *)
Theorem yielded_family_is_complete (aligned_segments : list AlignedSegment)
    (manifest : gmap CoordinateKey (gset string))
    (k : CoordinateKey) (pa : PairedAlignment) (g : gset PairedAlignment)
    (n : string) :
  Yielded k pa g ∈ (_build_coordinate_families aligned_segments manifest).1 ->
  n ∈ owed manifest k
  <-> exists pa', pa' ∈ g /\ query_name (right_alignment pa') = n.
Proof.
  intros Hin.
  pose proof (families_good_outcomes aligned_segments manifest) as Hall.
  rewrite Forall_forall in Hall. by destruct (Hall _ Hin) as (_ & _ & Hn).
Qed.

Lemma two_pairs_trace :
  (_build_coordinate_families two_pairs_input (coord_manifest two_pairs_input)).1
  = [Waiting; Waiting; Paired sample_key pair_a;
     Yielded sample_key pair_b {[pair_a; pair_b]}].
Proof. vm_compute. reflexivity. Qed.

Lemma completed_pairs_are_mates_witness :
  let o := Yielded sample_key pair_b {[pair_a; pair_b]} in
  o ∈ (_build_coordinate_families two_pairs_input
         (coord_manifest two_pairs_input)).1
  /\ inserted_key o = Some sample_key
  /\ completed_pair o = Some pair_b
  /\ mates_in two_pairs_input sample_key pair_b.
Proof.
  intros o.
  assert (o ∈ (_build_coordinate_families two_pairs_input
                 (coord_manifest two_pairs_input)).1) as Hin.
  { rewrite two_pairs_trace. apply list_elem_of_In. simpl. tauto. }
  split; [exact Hin|]. split; [reflexivity|]. split; [reflexivity|].
  exact (proj1 (completed_pairs_are_mates two_pairs_input
                  (coord_manifest two_pairs_input) o sample_key pair_b
                  Hin eq_refl eq_refl)).
Defined.

Lemma yielded_family_is_complete_witness :
  Yielded sample_key pair_b {[pair_a; pair_b]}
    ∈ (_build_coordinate_families two_pairs_input
         (coord_manifest two_pairs_input)).1
  /\ ("a"%string ∈ owed (coord_manifest two_pairs_input) sample_key
      <-> exists pa', pa' ∈ ({[pair_a; pair_b]} : gset PairedAlignment)
                      /\ query_name (right_alignment pa') = "a"%string).
Proof.
  assert (Yielded sample_key pair_b {[pair_a; pair_b]}
            ∈ (_build_coordinate_families two_pairs_input
                 (coord_manifest two_pairs_input)).1) as Hin.
  { rewrite two_pairs_trace. apply list_elem_of_In. simpl. tauto. }
  split; [exact Hin|].
  exact (yielded_family_is_complete two_pairs_input
           (coord_manifest two_pairs_input) sample_key pair_b
           {[pair_a; pair_b]} "a"%string Hin).
Defined.

(** ** The families of the partitioner, for any ranking *)

Lemma fold_assign_nonempty group ranked
    (tag_aligns : list (Tag * gset PairedAlignment)) :
  Forall (fun kv => kv.2 <> ∅) tag_aligns ->
  Forall (fun kv => kv.2 <> ∅)
    (fold_left (fun tag_aligns paired_align =>
                  assign_pair paired_align ranked tag_aligns)
               group tag_aligns).
Proof.
  revert tag_aligns. induction group as [|pa group IH]; intros tag_aligns Hne;
    [done|].
  simpl. apply IH.
  destruct (assign_pair_spec pa ranked tag_aligns)
    as [(t & _ & ->)|[_ ->]]; [|done].
  apply (dd_update_Forall (fun s : gset PairedAlignment => s <> ∅)); [| |done].
  - intros s _ Hs.
    apply (not_elem_of_empty (C:=gset PairedAlignment) pa).
    rewrite <- Hs. apply elem_of_union. right. by apply elem_of_singleton.
  - intros Hs. apply (not_elem_of_empty (C:=gset PairedAlignment) pa).
    rewrite <- Hs. apply elem_of_union. right. by apply elem_of_singleton.
Qed.

Lemma build_tag_aligns_nonempty group ranked :
  Forall (fun kv => kv.2 <> ∅) (build_tag_aligns group ranked).
Proof. apply fold_assign_nonempty, Forall_nil_2. Qed.

(** An entry of [tag_aligns] is the family of its tag, and some pair of the
    group has this tag as first matching tag. *)
Lemma build_tag_aligns_entry group ranked t family :
  (t, family) ∈ build_tag_aligns group ranked ->
  dd_get t (build_tag_aligns group ranked) = Some family
  /\ exists pa, pa ∈ family /\ pa ∈ group /\ first_matching_tag pa ranked t.
Proof.
  intros Hin.
  assert (dd_get t (build_tag_aligns group ranked) = Some family) as Hget
    by (apply elem_of_dd_get; [apply build_tag_aligns_NoDup|done]).
  split; [done|].
  pose proof (build_tag_aligns_nonempty group ranked) as Hne.
  rewrite Forall_forall in Hne. specialize (Hne _ Hin). simpl in Hne.
  apply set_choose_L in Hne as [pa Hpa]. exists pa. split; [done|].
  apply elem_of_build_tag_aligns. unfold tag_family. by rewrite Hget.
Qed.

Lemma tag_families_lookup group ranked i family :
  _build_tag_families group ranked !! i = Some family ->
  exists t, build_tag_aligns group ranked !! i = Some (t, family).
Proof.
  unfold _build_tag_families, dd_values. intros Hi.
  change (map snd (build_tag_aligns group ranked))
    with (snd <$> build_tag_aligns group ranked) in Hi.
  apply list_lookup_fmap_Some in Hi as ([t c] & -> & Hi).
  exists t. exact Hi.
Qed.

Lemma tag_families_nonempty group ranked :
  Forall (fun family => family <> ∅) (_build_tag_families group ranked).
Proof.
  unfold _build_tag_families, dd_values.
  change (map snd ?l) with (snd <$> l). apply Forall_fmap.
  apply build_tag_aligns_nonempty.
Qed.

Lemma tag_families_disjoint group ranked i j family1 family2 :
  i <> j ->
  _build_tag_families group ranked !! i = Some family1 ->
  _build_tag_families group ranked !! j = Some family2 ->
  family1 ## family2.
Proof.
  intros Hij H1 H2.
  apply tag_families_lookup in H1 as [t1 H1].
  apply tag_families_lookup in H2 as [t2 H2].
  assert (t1 <> t2) as Hne.
  { intros <-. apply Hij.
    apply (NoDup_lookup (dd_keys (build_tag_aligns group ranked)) i j t1);
      [apply build_tag_aligns_NoDup| |]; unfold dd_keys;
      change (map fst ?l) with (fst <$> l);
      rewrite list_lookup_fmap; [by rewrite H1|by rewrite H2]. }
  apply list_elem_of_lookup_2 in H1, H2.
  apply build_tag_aligns_entry in H1 as [G1 _].
  apply build_tag_aligns_entry in H2 as [G2 _].
  apply elem_of_disjoint. intros pa Hp1 Hp2. apply Hne.
  apply (first_matching_tag_unique pa ranked).
  - apply (elem_of_build_tag_aligns group). unfold tag_family. by rewrite G1.
  - apply (elem_of_build_tag_aligns group). unfold tag_family. by rewrite G2.
Qed.

(** X5: whatever the group and the ranking, no returned family is empty,
    two returned families never share a pair, each family holds only pairs
    of the group whose first matching tag is one and the same ranked tag,
    and there are at most as many families as distinct ranked tags. *)
Theorem tag_families_partition (tagged_paired_aligns : list PairedAlignment)
    (ranked_tags : list Tag) :
  let families := _build_tag_families tagged_paired_aligns ranked_tags in
  Forall (fun family => family <> ∅) families
  /\ (forall i j family1 family2, i <> j ->
        families !! i = Some family1 -> families !! j = Some family2 ->
        family1 ## family2)
  /\ (forall family, family ∈ families ->
        exists t, t ∈ ranked_tags
                  /\ forall pa, pa ∈ family ->
                       pa ∈ tagged_paired_aligns
                       /\ first_matching_tag pa ranked_tags t)
  /\ (length families <= length (remove_dups ranked_tags))%nat.
Proof.
  intros families. split; [|split; [|split]].
  - apply tag_families_nonempty.
  - intros i j f1 f2. apply tag_families_disjoint.
  - intros family Hf. unfold families, _build_tag_families, dd_values in Hf.
    change (map snd ?l) with (snd <$> l) in Hf.
    apply list_elem_of_fmap in Hf as ([t c] & -> & Hin). simpl.
    destruct (build_tag_aligns_entry _ _ _ _ Hin)
      as (Hget & pa0 & _ & _ & (before & after & Hr & _)).
    exists t. split; [rewrite Hr; apply elem_of_app; right; left|].
    intros pa Hpa. apply elem_of_build_tag_aligns.
    unfold tag_family. by rewrite Hget.
  - unfold families, _build_tag_families, dd_values.
    rewrite length_map, <- (length_map fst).
    apply submseteq_length, NoDup_submseteq;
      [apply build_tag_aligns_NoDup|].
    intros t Ht. apply elem_of_remove_dups.
    unfold dd_keys in Ht. change (map fst ?l) with (fst <$> l) in Ht.
    apply list_elem_of_fmap in Ht as ([t' c] & -> & Hin). simpl.
    destruct (build_tag_aligns_entry _ _ _ _ Hin)
      as (_ & pa0 & _ & _ & (before & after & Hr & _)).
    rewrite Hr. apply elem_of_app. right. left.
Qed.

Lemma has_match_spec ranked pa :
  has_match ranked pa = true <-> exists t, first_matching_tag pa ranked t.
Proof.
  unfold has_match. rewrite existsb_exists. split.
  - intros (t & Hin & Hm). apply (first_matching_tag_exists pa ranked t).
    + by apply list_elem_of_In.
    + by apply tag_matches_spec.
  - intros (t & before & after & -> & _ & Hm). exists t. split.
    + apply in_or_app. right. by left.
    + by apply tag_matches_spec.
Qed.

Lemma has_match_false ranked pa tag_aligns :
  has_match ranked pa = false -> assign_pair pa ranked tag_aligns = tag_aligns.
Proof.
  intros Hno.
  destruct (assign_pair_spec pa ranked tag_aligns)
    as [(t & Ht & _)|[_ ->]]; [|done].
  assert (has_match ranked pa = true) by (apply has_match_spec; eauto).
  congruence.
Qed.

Lemma fold_assign_size_matching group ranked
    (tag_aligns : list (Tag * gset PairedAlignment)) :
  NoDup group ->
  (forall pa, pa ∈ group -> Forall (fun kv => pa ∉ kv.2) tag_aligns) ->
  sum_list_with size
    (dd_values (fold_left (fun tag_aligns paired_align =>
                             assign_pair paired_align ranked tag_aligns)
                          group tag_aligns))
  = (sum_list_with size (dd_values tag_aligns)
     + length (filter (fun pa => has_match ranked pa = true) group))%nat.
Proof.
  revert tag_aligns.
  induction group as [|pa group IH]; intros tag_aligns Hnd Hfresh.
  - simpl. lia.
  - apply NoDup_cons in Hnd as [Hpa Hnd]. cbn [fold_left].
    rewrite filter_cons.
    destruct (decide (has_match ranked pa = true)) as [Hm|Hm].
    + destruct (assign_pair_spec pa ranked tag_aligns)
        as [(t & _ & ->)|[Hall _]].
      * rewrite IH; [|done|].
        -- rewrite dd_update_add_size by (apply Hfresh; left). simpl. lia.
        -- intros pa' Hin.
           apply (dd_update_Forall (fun s : gset PairedAlignment => pa' ∉ s)).
           ++ intros s Hs [?| ->%elem_of_singleton]%elem_of_union; done.
           ++ intros [?%not_elem_of_empty| ->%elem_of_singleton]%elem_of_union;
                done.
           ++ apply Hfresh. by right.
      * apply has_match_spec in Hm as [t Ht].
        destruct (first_matching_tag_not_all _ _ _ Ht Hall).
    + rewrite has_match_false by (by destruct (has_match ranked pa)).
      apply IH; [done|]. intros pa' Hin. apply Hfresh. by right.
Qed.

(** X6: with an arbitrary ranking, the returned families hold exactly the
    pairs of the coordinate family that match some ranked tag on the left
    or on the right prefix; a pair that matches none is in no family, and
    the sizes of the families add up to the number of matching pairs. *)
Theorem unmatched_pairs_are_dropped (coord_family : gset PairedAlignment)
    (ranked_tags : list Tag) :
  let aligns := elements coord_family in
  let families := _build_tag_families aligns ranked_tags in
  (forall pa,
     (exists family, family ∈ families /\ pa ∈ family)
     <-> pa ∈ coord_family
         /\ exists t, t ∈ ranked_tags /\ matches_tag pa t)
  /\ sum_list_with size families
     = length (filter (fun pa => has_match ranked_tags pa = true) aligns).
Proof.
  intros aligns families. split.
  - intros pa. unfold families. rewrite tag_families_cover.
    unfold aligns. rewrite elem_of_elements. split.
    + intros [Hin (t & before & after & -> & _ & Hm)]. split; [done|].
      exists t. split; [|done]. apply elem_of_app. right. left.
    + intros [Hin (t & Ht & Hm)]. split; [done|].
      by apply (first_matching_tag_exists pa ranked_tags t).
  - unfold families, _build_tag_families, build_tag_aligns.
    rewrite fold_assign_size_matching; [done|apply NoDup_elements|].
    intros. apply Forall_nil_2.
Qed.

Lemma build_tag_aligns_same_pairs group1 group2 ranked t family :
  (forall pa, pa ∈ group1 <-> pa ∈ group2) ->
  (t, family) ∈ build_tag_aligns group1 ranked ->
  (t, family) ∈ build_tag_aligns group2 ranked.
Proof.
  intros Hsame Hin.
  destruct (build_tag_aligns_entry _ _ _ _ Hin) as (Hget & pa0 & Hpa0 & _).
  assert (forall pa, pa ∈ tag_family (build_tag_aligns group2 ranked) t
                     <-> pa ∈ family) as Hfam.
  { intros pa. rewrite elem_of_build_tag_aligns, <- Hsame.
    rewrite <- elem_of_build_tag_aligns. unfold tag_family. by rewrite Hget. }
  unfold tag_family in Hfam.
  destruct (dd_get t (build_tag_aligns group2 ranked)) as [family2|] eqn:Hget2.
  - apply dd_get_Some_elem_of in Hget2.
    assert (family2 = family) as <-; [|done].
    apply set_eq. intros pa. apply Hfam.
  - apply Hfam in Hpa0. by apply not_elem_of_empty in Hpa0.
Qed.

(** X7: the returned families do not depend on the order in which the pairs
    of the group are iterated (nor on repetitions): two iteration sequences
    with the same pairs give the same families, up to the order of the
    returned list. *)
Theorem tag_families_order_independent (group1 group2 : list PairedAlignment)
    (ranked_tags : list Tag) :
  (forall pa, pa ∈ group1 <-> pa ∈ group2) ->
  _build_tag_families group1 ranked_tags
  ≡ₚ _build_tag_families group2 ranked_tags.
Proof.
  intros Hsame. unfold _build_tag_families, dd_values.
  change (map snd ?l) with (snd <$> l). apply fmap_Permutation.
  apply NoDup_Permutation.
  - apply (NoDup_fmap_1 fst), build_tag_aligns_NoDup.
  - apply (NoDup_fmap_1 fst), build_tag_aligns_NoDup.
  - intros [t family]. split; apply build_tag_aligns_same_pairs; [done|].
    intros pa. symmetry. apply Hsame.
Qed.

Lemma tag_families_order_independent_witness :
  (forall pa, pa ∈ sample_family <-> pa ∈ reverse sample_family)
  /\ _build_tag_families sample_family [tag_ATT_CCC; tag_AAA_CCC]
     ≡ₚ _build_tag_families (reverse sample_family)
          [tag_ATT_CCC; tag_AAA_CCC].
Proof.
  assert (forall pa, pa ∈ sample_family <-> pa ∈ reverse sample_family)
    as Hsame by (intros pa; by rewrite elem_of_reverse).
  split; [exact Hsame|].
  exact (tag_families_order_independent _ _ _ Hsame).
Defined.

(** ** More on the ranking *)

Lemma sum_indicator (t0 : Tag) (l : list Tag) :
  NoDup l -> t0 ∈ l ->
  sum_list_with (fun t => if decide (t0 = t) then 1%nat else 0%nat) l = 1%nat.
Proof.
  induction 1 as [|t l Hfresh Hnd IH]; [by intros ?%not_elem_of_nil|].
  intros [->|Hin]%elem_of_cons; simpl.
  - rewrite decide_True by done.
    assert (sum_list_with (fun t0 => if decide (t = t0) then 1%nat else 0%nat) l
            = 0%nat) as ->; [|done].
    clear IH Hnd. induction l as [|t' l IH]; [done|]. simpl.
    apply not_elem_of_cons in Hfresh as [Hne Hfresh].
    rewrite decide_False by done. by rewrite IH.
  - rewrite decide_False by (intros ->; done). by rewrite IH.
Qed.

Lemma sum_tag_occurrences (l : list Tag) (group : list PairedAlignment) :
  NoDup l -> (forall pa, pa ∈ group -> tag_of pa ∈ l) ->
  sum_list_with (fun t => tag_occurrences t group) l = length group.
Proof.
  intros Hnd. induction group as [|pa group IH]; intros Hall.
  - unfold tag_occurrences. simpl. clear. induction l; [done|simpl; by rewrite IHl].
  - assert (sum_list_with (fun t => tag_occurrences t (pa :: group)) l
            = (sum_list_with
                 (fun t => if decide (tag_of pa = t) then 1 else 0) l
               + sum_list_with (fun t => tag_occurrences t group) l)%nat) as ->.
    { clear. induction l as [|t l IHl]; [done|]. simpl.
      rewrite IHl, tag_occurrences_cons. lia. }
    rewrite sum_indicator; [|done|apply Hall; left].
    rewrite IH; [done|]. intros pa' Hin. apply Hall. by right.
Qed.

(** X8: the ranked tags account for every pair of the group exactly once:
    their occurrence counts add up to the size of the group, each ranked
    tag occurs at least once, there are at most as many ranked tags as
    pairs, and the ranking is empty only for the empty group. *)
Theorem rank_tags_counts_cover (group : list PairedAlignment) :
  sum_list_with (fun t => tag_occurrences t group) (_rank_tags group)
  = length group
  /\ Forall (fun t => (0 < tag_occurrences t group)%nat) (_rank_tags group)
  /\ (length (_rank_tags group) <= length group)%nat
  /\ (_rank_tags group = [] <-> group = []).
Proof.
  split; [|split; [|split]].
  - apply sum_tag_occurrences; [apply rank_tags_NoDup|].
    intros pa Hin. apply elem_of_rank_tags. eauto.
  - apply Forall_forall. intros t Ht.
    apply tag_occurrences_pos. by apply elem_of_rank_tags.
  - rewrite <- (length_fmap tag_of group).
    apply submseteq_length, NoDup_submseteq; [apply rank_tags_NoDup|].
    intros t. apply elem_of_rank_tags_fmap.
  - split; [|by intros ->].
    intros Hnil. destruct group as [|pa group]; [done|].
    assert (tag_of pa ∈ _rank_tags (pa :: group)) as Hin.
    { apply elem_of_rank_tags. exists pa. split; [left|done]. }
    rewrite Hnil in Hin. by apply not_elem_of_nil in Hin.
Qed.

(** X9: the first ranked tag is a most frequent tag of the group, and among
    the most frequent tags it is the lexicographically smallest. *)
Theorem rank_tags_head_most_frequent (group : list PairedAlignment)
    (t0 : Tag) (rest : list Tag) (pa : PairedAlignment) :
  _rank_tags group = t0 :: rest ->
  pa ∈ group ->
  (tag_occurrences (tag_of pa) group <= tag_occurrences t0 group)%nat
  /\ (tag_occurrences (tag_of pa) group = tag_occurrences t0 group ->
      tag_of pa = t0 \/ tag_lt t0 (tag_of pa)).
Proof.
  intros Hrank Hin.
  pose proof (rank_tags_sorted group) as Hsorted. rewrite Hrank in Hsorted.
  apply StronglySorted_inv in Hsorted as [_ Hhead].
  assert (tag_of pa ∈ t0 :: rest) as Ht.
  { rewrite <- Hrank. apply elem_of_rank_tags. eauto. }
  apply elem_of_cons in Ht as [->|Ht]; [split; [lia|by left]|].
  rewrite Forall_forall in Hhead. specialize (Hhead _ Ht).
  unfold ranked_before in Hhead. destruct Hhead as [Hlt|[Heq Hlex]].
  - split; [lia|]. intros E. lia.
  - split; [lia|]. intros _. by right.
Qed.

Lemma rank_tags_head_most_frequent_witness :
  let pa := tagged_pair "d" "ATTGG" "CCCTT" in
  _rank_tags sample_family = tag_AAA_CCC :: [tag_ATT_CCC]
  /\ pa ∈ sample_family
  /\ (tag_occurrences (tag_of pa) sample_family
      <= tag_occurrences tag_AAA_CCC sample_family)%nat.
Proof.
  intros pa.
  assert (_rank_tags sample_family = tag_AAA_CCC :: [tag_ATT_CCC]) as Hrank
    by (vm_compute; reflexivity).
  assert (pa ∈ sample_family) as Hin.
  { apply list_elem_of_In. simpl. tauto. }
  split; [exact Hrank|]. split; [exact Hin|].
  exact (proj1 (rank_tags_head_most_frequent sample_family tag_AAA_CCC
                  [tag_ATT_CCC] pa Hrank Hin)).
Defined.

(** ** The entry point *)

Lemma build_consensus_pair_Some (family : gset PairedAlignment) :
  family <> ∅ ->
  exists read_pair,
    _build_consensus_pair family = Some read_pair /\ read_pair ∈ family.
Proof.
  intros Hne. unfold _build_consensus_pair.
  destruct (elements family) as [|rp l] eqn:Hel.
  - apply elements_empty_inv in Hel. by apply leibniz_equiv in Hel.
  - exists rp. split; [done|]. apply elem_of_elements. rewrite Hel. left.
Qed.

Lemma build_consensus_pair_elem_of (family : gset PairedAlignment) rp :
  _build_consensus_pair family = Some rp -> rp ∈ family.
Proof.
  unfold _build_consensus_pair. intros Hh.
  apply elem_of_elements. by apply head_Some_elem_of.
Qed.

(** The representatives of one coordinate family. *)
Lemma consensus_pairs_spec (coord_family : gset PairedAlignment) :
  exists read_pairs,
    consensus_pairs coord_family = Some read_pairs
    /\ NoDup read_pairs
    /\ (forall rp, rp ∈ read_pairs -> rp ∈ coord_family)
    /\ length read_pairs
       = length (_build_tag_families (elements coord_family)
                   (_rank_tags (elements coord_family)))
    /\ (coord_family <> ∅ -> read_pairs <> []).
Proof.
  set (aligns := elements coord_family).
  set (families := _build_tag_families aligns (_rank_tags aligns)).
  pose proof (tag_families_nonempty aligns (_rank_tags aligns)) as Hne.
  pose proof (tag_families_disjoint aligns (_rank_tags aligns)) as Hdisj.
  fold families in Hne, Hdisj.
  assert (is_Some (mapM _build_consensus_pair families)) as [reps Hreps].
  { apply mapM_is_Some. eapply Forall_impl; [exact Hne|].
    intros family Hf. simpl.
    destruct (build_consensus_pair_Some family Hf) as (rp & -> & _). eauto. }
  exists reps. unfold consensus_pairs. fold aligns. fold families.
  split; [done|].
  pose proof (mapM_Some_1 _ _ _ Hreps) as Hall.
  assert (forall i rp, reps !! i = Some rp ->
            exists family, families !! i = Some family /\ rp ∈ family) as Hmem.
  { intros i rp Hi.
    destruct (Forall2_lookup_r _ _ _ _ _ Hall Hi) as (family & Hf & Hrp).
    exists family. split; [done|]. by apply build_consensus_pair_elem_of. }
  split; [|split; [|split]].
  - apply NoDup_alt. intros i j rp Hi Hj.
    destruct (Hmem i rp Hi) as (f1 & Hf1 & H1).
    destruct (Hmem j rp Hj) as (f2 & Hf2 & H2).
    destruct (decide (i = j)) as [|Hij]; [done|].
    pose proof (Hdisj i j f1 f2 Hij Hf1 Hf2) as Hd.
    rewrite elem_of_disjoint in Hd. destruct (Hd rp H1 H2).
  - intros rp [i Hi]%list_elem_of_lookup.
    destruct (Hmem i rp Hi) as (family & Hf & Hrp).
    apply elem_of_elements.
    apply (tag_families_cover aligns (_rank_tags aligns) rp).
    exists family. split; [|done]. by eapply list_elem_of_lookup_2.
  - symmetry. by eapply Forall2_length.
  - intros Hcf Hnil. subst reps. apply Forall2_nil_inv_r in Hall.
    apply set_choose_L in Hcf as [pa Hpa].
    assert (exists family, family ∈ families /\ pa ∈ family) as (f & Hf & _).
    { apply tag_families_cover. split; [by apply elem_of_elements|].
      apply own_tag_matches. by apply elem_of_elements. }
    rewrite Hall in Hf. by apply not_elem_of_nil in Hf.
Qed.

Lemma write_consensus_spec tag_families read_pairs outfile :
  mapM _build_consensus_pair tag_families = Some read_pairs ->
  write_consensus tag_families outfile = (outfile ++ written read_pairs, false).
Proof.
  intros Hall%mapM_Some_1. revert outfile.
  induction Hall as [|family rp families reps Hrp _ IH]; intros outfile.
  - simpl. by rewrite (right_id_L [] (++)).
  - cbn [write_consensus]. rewrite Hrp, IH.
    change (written (rp :: reps))
      with ([left_alignment rp; right_alignment rp] ++ written reps).
    by rewrite <- app_assoc.
Qed.

Lemma write_families_spec coord_families outfile :
  exists read_pairs,
    mapM consensus_pairs coord_families = Some read_pairs
    /\ write_families coord_families outfile
       = (outfile ++ written (mjoin read_pairs), false).
Proof.
  revert outfile. induction coord_families as [|cf rest IH]; intros outfile.
  - exists []. split; [done|]. simpl. by rewrite (right_id_L [] (++)).
  - destruct (consensus_pairs_spec cf) as (reps & Hreps & _).
    pose proof Hreps as Hw. unfold consensus_pairs in Hw.
    apply (write_consensus_spec _ _ outfile) in Hw.
    destruct (IH (outfile ++ written reps)) as (repss & Hrepss & Hwf).
    exists (reps :: repss). split.
    + cbn [mapM]. rewrite Hreps. simpl. by rewrite Hrepss.
    + cbn [write_families]. rewrite Hw, Hwf. simpl.
      by rewrite written_app, app_assoc.
Qed.

Lemma main_spec input :
  exists read_pairs,
    mapM consensus_pairs (yields (families_of input).1) = Some read_pairs
    /\ main input = (written (mjoin read_pairs), raises (families_of input).1).
Proof.
  destruct (write_families_spec (yields (families_of input).1) [])
    as (repss & Hrepss & Hwf).
  exists repss. split; [done|]. unfold main.
  change (_build_coordinate_families input
            (_build_coordinate_read_name_manifest
               (map LightweightAlignment.__init__ input)))
    with (families_of input).
  by rewrite Hwf.
Qed.

Lemma yielded_pairs_cons o trace :
  yielded_pairs (o :: trace)
  = match yielded_family o with
    | Some g => elements g ++ yielded_pairs trace
    | None => yielded_pairs trace
    end.
Proof. unfold yielded_pairs, yields. simpl. by destruct (yielded_family o). Qed.

Lemma elem_of_yielded_pairs pa trace :
  pa ∈ yielded_pairs trace
  <-> exists k pa0 g, Yielded k pa0 g ∈ trace /\ pa ∈ g.
Proof.
  induction trace as [|o trace IH].
  - split; [by intros ?%not_elem_of_nil|].
    by intros (k & pa0 & g & ?%not_elem_of_nil & _).
  - rewrite yielded_pairs_cons. split.
    + destruct o as [| |k pa0 g|]; simpl;
        try (intros (k' & pa' & g' & Hin & Hpa)%IH;
             exists k', pa', g'; split; [by right|done]).
      intros [Hpa|Hpa]%elem_of_app.
      * exists k, pa0, g. split; [left|by apply elem_of_elements].
      * apply IH in Hpa as (k' & pa' & g' & Hin & Hpa).
        exists k', pa', g'. split; [by right|done].
    + intros (k & pa0 & g & [<-|Hin]%elem_of_cons & Hpa).
      * simpl. apply elem_of_app. left. by apply elem_of_elements.
      * assert (pa ∈ yielded_pairs trace) by (apply IH; eauto).
        destruct (yielded_family o); [apply elem_of_app; by right|done].
Qed.

Lemma yielded_pairs_NoDup_gen segs manifest0 trace :
  Forall (good_outcome segs manifest0) trace ->
  NoDup (omap yielded_key trace) ->
  NoDup (yielded_pairs trace).
Proof.
  induction 1 as [|o trace Ho Htrace IH]; [intros _; constructor|].
  rewrite yielded_pairs_cons.
  destruct o as [| |k pa0 g|]; simpl; try exact IH.
  intros [Hk Hnd]%NoDup_cons. apply NoDup_app.
  split; [apply NoDup_elements|]. split; [|by apply IH].
  intros pa Hpa Hpa'. apply elem_of_elements in Hpa.
  apply elem_of_yielded_pairs in Hpa' as (k' & pa1 & g' & Hin & Hpa').
  destruct Ho as (_ & Hg & _).
  rewrite Forall_forall in Htrace. destruct (Htrace _ Hin) as (_ & Hg' & _).
  destruct (Hg pa Hpa) as (_ & -> & _).
  destruct (Hg' pa Hpa') as (_ & -> & _).
  apply Hk. apply list_elem_of_omap.
  exists (Yielded (coordinate_key (right_alignment pa)) pa1 g'). by split.
Qed.

Lemma join_submseteq (cfs : list (gset PairedAlignment))
    (repss : list (list PairedAlignment)) :
  Forall2 (fun cf reps => reps ⊆+ elements cf) cfs repss ->
  mjoin repss ⊆+ cfs ≫= elements.
Proof.
  induction 1 as [|cf reps cfs repss Hsub _ IH]; [done|].
  rewrite bind_cons. simpl. by apply submseteq_app.
Qed.

(** What [main] writes: the left and right mates of pairwise distinct pairs
    taken from the yielded families, at least one from each family. *)
Lemma main_pairs input :
  exists pairs,
    main input = (written pairs, raises (families_of input).1)
    /\ pairs ⊆+ yielded_pairs (families_of input).1
    /\ forall g, g ∈ yields (families_of input).1 -> g <> ∅ ->
         exists pa, pa ∈ g /\ pa ∈ pairs.
Proof.
  destruct (main_spec input) as (repss & Hrepss & Hmain).
  exists (mjoin repss). split; [done|].
  apply mapM_Some_1 in Hrepss.
  assert (Forall2 (fun cf reps =>
            reps ⊆+ elements cf /\ (cf <> ∅ -> reps <> []))
          (yields (families_of input).1) repss) as Hall.
  { eapply Forall2_impl; [exact Hrepss|]. intros cf reps Hcf. simpl in Hcf.
    destruct (consensus_pairs_spec cf) as (reps' & Hcf' & Hnd & Hmem & _ & Hne).
    assert (reps' = reps) as -> by congruence.
    split; [|done]. apply NoDup_submseteq; [done|].
    intros rp Hrp. by apply elem_of_elements, Hmem. }
  split.
  - apply join_submseteq. eapply Forall2_impl; [exact Hall|]. by intros ?? [? _].
  - intros g [i Hi]%list_elem_of_lookup Hne.
    destruct (Forall2_lookup_l _ _ _ _ _ Hall Hi) as (reps & Hr & Hsub & Hnn).
    destruct reps as [|rp reps]; [by destruct (Hnn Hne)|].
    exists rp. split.
    + apply elem_of_elements. apply (elem_of_submseteq (rp :: reps)); [left|done].
    + apply list_elem_of_join. exists (rp :: reps).
      split; [left|by eapply list_elem_of_lookup_2].
Qed.

Lemma tag_families_length group ranked :
  (length (_build_tag_families group ranked)
   <= length (remove_dups ranked))%nat.
Proof.
  unfold _build_tag_families, dd_values.
  rewrite length_map, <- (length_map fst).
  apply submseteq_length, NoDup_submseteq; [apply build_tag_aligns_NoDup|].
  intros t Ht. apply elem_of_remove_dups.
  unfold dd_keys in Ht. change (map fst ?l) with (fst <$> l) in Ht.
  apply list_elem_of_fmap in Ht as ([t' c] & -> & Hin). simpl.
  destruct (build_tag_aligns_entry _ _ _ _ Hin)
    as (_ & pa0 & _ & _ & (before & after & Hr & _)).
  rewrite Hr. apply elem_of_app. right. left.
Qed.

Lemma well_formed_run input :
  well_formed input ->
  raises (families_of input).1 = false
  /\ written (yielded_pairs (families_of input).1) ≡ₚ input.
Proof.
  intros Hwf.
  pose proof (run_assembling input input Hwf [] []
                (mkState ∅ ∅ (coord_manifest input)) eq_refl
                (assembling_init input)) as Hasm.
  rewrite app_nil_l in Hasm.
  destruct (assembling_final _ _ _ Hwf Hasm) as (_ & _ & Hperm).
  split; [exact (asm_no_raise _ _ _ _ Hasm)|exact Hperm].
Qed.

Lemma mates_in_elem_of segs k pa :
  mates_in segs k pa ->
  left_alignment pa ∈ segs /\ right_alignment pa ∈ segs.
Proof.
  intros (_ & _ & i & j & _ & Hi & Hj).
  split; by eapply list_elem_of_lookup_2.
Qed.

Lemma submseteq_NoDup_l {A} (l k : list A) : l ⊆+ k -> NoDup k -> NoDup l.
Proof.
  intros [k' Hk]%submseteq_Permutation Hnd. rewrite Hk in Hnd.
  by apply NoDup_app in Hnd as [? _].
Qed.

(** X10: the body of [main]'s loop never fails on [pop]: for every
    coordinate family it chooses pairwise distinct representatives, all
    taken from the family, at most one per ranked tag, and at least one
    when the family is not empty. *)
Theorem consensus_pairs_per_family (coord_family : gset PairedAlignment) :
  exists read_pairs,
    consensus_pairs coord_family = Some read_pairs
    /\ NoDup read_pairs
    /\ (forall read_pair, read_pair ∈ read_pairs -> read_pair ∈ coord_family)
    /\ (length read_pairs
        <= length (_rank_tags (elements coord_family)))%nat
    /\ (coord_family <> ∅ -> (1 <= length read_pairs)%nat).
Proof.
  destruct (consensus_pairs_spec coord_family)
    as (reps & Hreps & Hnd & Hmem & Hlen & Hne).
  exists reps. split; [done|]. split; [done|]. split; [done|]. split.
  - rewrite Hlen.
    etrans; [apply tag_families_length|].
    apply submseteq_length, NoDup_submseteq; [apply NoDup_remove_dups|].
    intros t. apply elem_of_remove_dups.
  - intros Hcf. specialize (Hne Hcf). destruct reps; [done|simpl; lia].
Qed.

(** X11: whatever the input and the manifest, no pair is yielded twice:
    the yielded families are pairwise disjoint. *)
Theorem no_pair_yielded_twice (aligned_segments : list AlignedSegment)
    (manifest : gmap CoordinateKey (gset string)) :
  NoDup (yielded_pairs (_build_coordinate_families aligned_segments manifest).1)
  /\ forall i j g1 g2, i <> j ->
       yields (_build_coordinate_families aligned_segments manifest).1 !! i
       = Some g1 ->
       yields (_build_coordinate_families aligned_segments manifest).1 !! j
       = Some g2 ->
       g1 ## g2.
Proof.
  assert (NoDup (yielded_pairs
            (_build_coordinate_families aligned_segments manifest).1)) as Hnd.
  { apply (yielded_pairs_NoDup_gen aligned_segments manifest).
    - apply families_good_outcomes.
    - apply run_yield_keys_NoDup. }
  split; [done|]. unfold yielded_pairs in Hnd.
  generalize dependent
    (yields (_build_coordinate_families aligned_segments manifest).1).
  intros gs Hnd i j g1 g2 Hij Hi Hj.
  apply elem_of_disjoint. intros pa H1 H2.
  assert (forall i j g1 g2, (i < j)%nat -> gs !! i = Some g1 ->
            gs !! j = Some g2 -> pa ∈ g1 -> pa ∈ g2 -> False) as Hlt.
  { clear -Hnd. intros i j g1 g2 Hij Hi Hj H1 H2.
    rewrite <- (take_drop_middle gs i g1 Hi) in Hnd, Hj.
    rewrite bind_app, bind_cons in Hnd.
    apply NoDup_app in Hnd as (_ & _ & Hnd).
    apply NoDup_app in Hnd as (_ & Hnd & _).
    apply (Hnd pa); [by apply elem_of_elements|].
    rewrite lookup_app_r in Hj by (rewrite length_take; lia).
    rewrite length_take_le in Hj by (apply lookup_lt_Some in Hi; lia).
    destruct (j - i)%nat as [|d] eqn:Hd; [lia|]. simpl in Hj.
    apply list_elem_of_bind. exists g2.
    split; [by apply elem_of_elements|by eapply list_elem_of_lookup_2]. }
  destruct (decide (i < j)%nat); [by eapply (Hlt i j)|].
  eapply (Hlt j i); [lia|done..].
Qed.

(** X12: whatever the input, [main] can only end by the [KeyError] of the
    generator, and what it has written is, pair after pair, the left and
    the right mate of pairwise distinct pairs, each made of two input reads
    with one name, the one met first written first. *)
Theorem main_writes_mate_pairs (input_bam : list AlignedSegment) :
  exists pairs,
    main input_bam = (written pairs, raises (families_of input_bam).1)
    /\ NoDup pairs
    /\ forall pa, pa ∈ pairs ->
         exists k, mates_in input_bam k pa.
Proof.
  destruct (main_pairs input_bam) as (pairs & Hmain & Hsub & _).
  exists pairs. split; [done|]. split.
  - apply (submseteq_NoDup_l _ _ Hsub).
    apply (yielded_pairs_NoDup_gen input_bam (coord_manifest input_bam)).
    + apply families_good_outcomes.
    + apply run_yield_keys_NoDup.
  - intros pa Hpa. apply (elem_of_submseteq _ _ _ Hpa) in Hsub.
    apply elem_of_yielded_pairs in Hsub as (k & pa0 & g & Hin & Hg).
    pose proof (families_good_outcomes input_bam (coord_manifest input_bam))
      as Hall.
    rewrite Forall_forall in Hall. destruct (Hall _ Hin) as (_ & Hmates & _).
    exists k. by apply Hmates.
Qed.

(** X13: on a well-formed input [main] ends normally; the records written
    are a sub-multiset of the input reads (nothing is invented or written
    twice), and every coordinate key of the input is still represented in
    the output. *)
Theorem main_on_well_formed_input (input_bam : list AlignedSegment) :
  well_formed input_bam ->
  (main input_bam).2 = false
  /\ (main input_bam).1 ⊆+ input_bam
  /\ forall r, r ∈ input_bam ->
       exists w, w ∈ (main input_bam).1
                 /\ coordinate_key w = coordinate_key r.
Proof.
  intros Hwf. destruct (well_formed_run input_bam Hwf) as [Hnr Hperm].
  destruct (main_pairs input_bam) as (pairs & Hmain & Hsub & Hrep).
  rewrite Hmain. simpl. split; [done|]. split.
  - rewrite <- Hperm. unfold written. by apply bind_submseteq.
  - intros r Hr. rewrite <- Hperm in Hr.
    apply list_elem_of_bind in Hr as (pa & Hrpa & Hpa).
    apply elem_of_yielded_pairs in Hpa as (k & pa0 & g & Hin & Hg).
    pose proof (families_good_outcomes input_bam (coord_manifest input_bam))
      as Hall.
    rewrite Forall_forall in Hall. destruct (Hall _ Hin) as (_ & Hmates & _).
    assert (forall pa', pa' ∈ g ->
              coordinate_key (left_alignment pa') = k
              /\ coordinate_key (right_alignment pa') = k) as Hkeys.
    { intros pa' Hpa'. pose proof (Hmates pa' Hpa') as Hm.
      destruct (mates_in_elem_of _ _ _ Hm) as [Hl Hrr].
      destruct Hm as (Hn & -> & _). split; [|done].
      by apply (Hwf (right_alignment pa') Hrr). }
    assert (coordinate_key r = k) as ->.
    { destruct (Hkeys pa Hg) as [Hkl Hkr].
      apply elem_of_cons in Hrpa as [->|Hrpa]; [done|].
      apply list_elem_of_singleton in Hrpa as ->. done. }
    destruct (Hrep g) as (rp & Hrpg & Hrp).
    { apply list_elem_of_omap. exists (Yielded k pa0 g). by split. }
    { intros ->. by apply not_elem_of_empty in Hg. }
    exists (right_alignment rp). split; [|by apply Hkeys].
    apply list_elem_of_bind. exists rp. split; [|done].
    right. left.
Qed.

Lemma main_on_well_formed_input_witness :
  well_formed two_pairs_input
  /\ (main two_pairs_input).2 = false
  /\ (main two_pairs_input).1 ⊆+ two_pairs_input.
Proof.
  split; [exact two_pairs_well_formed|].
  destruct (main_on_well_formed_input two_pairs_input two_pairs_well_formed)
    as (H1 & H2 & _).
  exact (conj H1 H2).
Defined.

(** ** When the generator raises, and what it leaves of the manifest *)

Lemma completions_snoc n trace o :
  completions n (trace ++ [o])
  = (completions n trace
     + if decide ((query_name ∘ right_alignment) <$> completed_pair o = Some n)
       then 1 else 0)%nat.
Proof.
  unfold completions. rewrite filter_app, length_app. f_equal.
  rewrite filter_cons. by destruct (decide _).
Qed.

Lemma step_counting manifest0 p trace st aseg :
  counting_inv manifest0 p trace st ->
  is_raised (step st aseg).2 = false ->
  counting_inv manifest0 (p ++ [aseg]) (trace ++ [(step st aseg).2])
               (step st aseg).1.
Proof.
  intros [Hname Hcount Hrem] Hnr.
  destruct (pairing_dict st !! query_name aseg) as [mate|] eqn:Hlook.
  2:{ rewrite step_waiting by done. split; simpl.
      - intros n r. destruct (decide (query_name aseg = n)) as [<-|Hne].
        + rewrite lookup_insert_eq. by intros [= <-].
        + rewrite lookup_insert_ne by done. apply Hname.
      - intros n. rewrite name_count_snoc, completions_snoc, Hcount. simpl.
        destruct (decide (query_name aseg = n)) as [<-|Hne].
        + rewrite lookup_insert_eq, Hlook. lia.
        + rewrite lookup_insert_ne by done. lia.
      - intros k n H0 Hn. rewrite completions_snoc.
        specialize (Hrem k n H0 Hn). lia. }
  destruct (decide (query_name aseg
      ∈ owed (coord_read_name_manifest st) (coordinate_key aseg)))
    as [Hmem|Hmem];
    [|by rewrite (step_raising st aseg mate Hlook Hmem) in Hnr].
  clear Hnr.
  assert (forall k n, n ∈ owed manifest0 k ->
    n ∉ owed (<[coordinate_key aseg :=
                  owed (coord_read_name_manifest st) (coordinate_key aseg)
                  ∖ {[query_name aseg]}]> (coord_read_name_manifest st)) k ->
    n = query_name aseg \/ n ∉ owed (coord_read_name_manifest st) k) as Hcases.
  { intros k n H0 Hn. destruct (decide (coordinate_key aseg = k)) as [E|Hne].
    - rewrite <- E in *. rewrite owed_insert_eq in Hn.
      rewrite elem_of_difference, elem_of_singleton in Hn.
      destruct (decide (n = query_name aseg)); [by left|]. right. tauto.
    - rewrite owed_insert_ne in Hn by done. by right. }
  assert (forall o, completed_pair o = Some (mkPairedAlignment mate aseg) ->
    counting_inv manifest0 (p ++ [aseg]) (trace ++ [o])
      (mkState (family_dict (step st aseg).1)
         (delete (query_name aseg) (pairing_dict st))
         (<[coordinate_key aseg :=
              owed (coord_read_name_manifest st) (coordinate_key aseg)
              ∖ {[query_name aseg]}]> (coord_read_name_manifest st))))
    as Hgen.
  { intros o Ho. split; simpl.
    - intros n r Hr. apply lookup_delete_Some in Hr as [_ Hr]. by eapply Hname.
    - intros n. rewrite name_count_snoc, completions_snoc, Hcount, Ho. simpl.
      destruct (decide (query_name aseg = n)) as [<-|Hne].
      + rewrite lookup_delete_eq, Hlook, decide_True by done. lia.
      + rewrite lookup_delete_ne by done.
        rewrite decide_False by congruence. lia.
    - intros k n H0 Hn. rewrite completions_snoc, Ho. simpl.
      destruct (Hcases k n H0 Hn) as [->|Hold].
      + rewrite decide_True by done. lia.
      + specialize (Hrem k n H0 Hold). lia. }
  rewrite (step_pairing st aseg mate Hlook Hmem) in *. cbv zeta in *.
  destruct (decide (_ = ∅)); simpl in *; by apply Hgen.
Qed.

Lemma step_raise_count input p q trace st aseg :
  input = p ++ aseg :: q ->
  counting_inv (coord_manifest input) p trace st ->
  is_raised (step st aseg).2 = true ->
  (4 <= name_count (query_name aseg) input)%nat.
Proof.
  intros Hinput [Hname Hcount Hrem] Hr.
  destruct (pairing_dict st !! query_name aseg) as [mate|] eqn:Hlook;
    [|by rewrite step_waiting in Hr].
  destruct (decide (query_name aseg
      ∈ owed (coord_read_name_manifest st) (coordinate_key aseg)))
    as [Hmem|Hmem].
  { rewrite (step_pairing st aseg mate Hlook Hmem) in Hr. cbv zeta in Hr.
    by destruct (decide (_ = ∅)). }
  assert (query_name aseg ∈ owed (coord_manifest input) (coordinate_key aseg))
    as H0.
  { apply coord_manifest_spec. exists aseg. split; [|done].
    rewrite Hinput. apply elem_of_app. right. left. }
  specialize (Hrem _ _ H0 Hmem). specialize (Hcount (query_name aseg)).
  rewrite Hlook in Hcount.
  rewrite Hinput, name_count_app, name_count_cons, decide_True by done. lia.
Qed.

Lemma run_counting input q :
  (forall r, r ∈ input -> (name_count (query_name r) input < 4)%nat) ->
  forall p trace st, input = p ++ q ->
    counting_inv (coord_manifest input) p trace st ->
    raises (run st q).1 = false.
Proof.
  intros Hfew. induction q as [|aseg q IH]; intros p trace st Hinput Hinv;
    [done|].
  assert (is_raised (step st aseg).2 = false) as Hnr.
  { destruct (is_raised (step st aseg).2) eqn:Hr; [|done].
    pose proof (step_raise_count input p q trace st aseg Hinput Hinv Hr).
    assert (aseg ∈ input) as Hin
      by (rewrite Hinput; apply elem_of_app; right; left).
    specialize (Hfew aseg Hin). lia. }
  rewrite run_cons, Hnr. simpl. unfold raises in *. simpl. rewrite Hnr. simpl.
  apply (IH (p ++ [aseg]) (trace ++ [(step st aseg).2])).
  - by rewrite <- app_assoc.
  - by apply step_counting.
Qed.

Lemma counting_inv_init manifest0 :
  counting_inv manifest0 [] [] (mkState ∅ ∅ manifest0).
Proof.
  split; simpl.
  - intros n r. by rewrite lookup_empty.
  - intros n. by rewrite lookup_empty.
  - intros k n H0 Hn. done.
Qed.

(** X14: with the manifest of the same input, the [KeyError] of the
    generator needs a read name that occurs at least four times: when every
    name occurs at most three times (orphans and mates with different keys
    included) the pass, and [main], end normally. *)
Theorem key_error_needs_repeated_name (input_bam : list AlignedSegment) :
  (forall r, r ∈ input_bam ->
     (name_count (query_name r) input_bam < 4)%nat) ->
  raises (families_of input_bam).1 = false
  /\ (main input_bam).2 = false.
Proof.
  intros Hfew.
  assert (raises (families_of input_bam).1 = false) as Hnr.
  { apply (run_counting input_bam input_bam Hfew [] []); [done|].
    apply counting_inv_init. }
  split; [done|].
  destruct (main_pairs input_bam) as (pairs & -> & _). done.
Qed.

Lemma step_manifest_dom_eq st aseg :
  is_raised (step st aseg).2 = false ->
  dom (coord_read_name_manifest (step st aseg).1)
  = dom (coord_read_name_manifest st).
Proof.
  intros Hnr.
  destruct (pairing_dict st !! query_name aseg) as [mate|] eqn:Hlook;
    [|by rewrite step_waiting].
  destruct (decide (query_name aseg
      ∈ owed (coord_read_name_manifest st) (coordinate_key aseg)))
    as [Hmem|Hmem];
    [|by rewrite (step_raising st aseg mate Hlook Hmem) in Hnr].
  assert (coordinate_key aseg ∈ dom (coord_read_name_manifest st)) as Hdom.
  { apply elem_of_dom. unfold owed in Hmem.
    destruct (coord_read_name_manifest st !! coordinate_key aseg); [eauto|].
    by apply not_elem_of_empty in Hmem. }
  rewrite (step_pairing st aseg mate Hlook Hmem). cbv zeta.
  destruct (decide (_ = ∅)); simpl; rewrite dom_insert_L;
    apply set_eq; intros k; rewrite elem_of_union, elem_of_singleton;
    split; auto; intros [->|?]; auto.
Qed.

Lemma run_manifest_dom_eq st segs :
  raises (run st segs).1 = false ->
  dom (coord_read_name_manifest (run st segs).2)
  = dom (coord_read_name_manifest st).
Proof.
  revert st. induction segs as [|aseg rest IH]; intros st; [done|].
  rewrite run_cons. destruct (is_raised (step st aseg).2) eqn:Hr; simpl.
  - unfold raises. simpl. by rewrite Hr.
  - unfold raises in *. simpl. rewrite Hr. simpl. intros Hrest.
    by rewrite IH, step_manifest_dom_eq.
Qed.

Lemma assembling_owed_empty input tr st k :
  well_formed input -> assembling input input tr st ->
  owed (coord_read_name_manifest st) k = ∅.
Proof.
  intros Hwf Hasm. apply set_eq. intros n.
  split; [|by intros ?%not_elem_of_empty].
  intros Hn. destruct (asm_owed_only _ _ _ _ Hasm k n Hn)
    as [Hlt (r & Hr & <- & _)].
  destruct (Hwf r Hr) as [Hc _]. lia.
Qed.

(** X15: the generator uses up the manifest it is given: after the pass
    over a well-formed input the manifest built by [main] has its keys
    unchanged and every entry bound to the empty set. *)
Theorem manifest_is_used_up (input_bam : list AlignedSegment)
    (k : CoordinateKey) :
  well_formed input_bam ->
  coord_read_name_manifest (families_of input_bam).2 !! k
  = if decide (k ∈ dom (coord_manifest input_bam)) then Some ∅ else None.
Proof.
  intros Hwf.
  pose proof (run_assembling input_bam input_bam Hwf [] []
                (mkState ∅ ∅ (coord_manifest input_bam)) eq_refl
                (assembling_init input_bam)) as Hasm.
  rewrite app_nil_l in Hasm.
  pose proof (assembling_owed_empty _ _ _ k Hwf Hasm) as Hempty.
  pose proof (run_manifest_dom_eq (mkState ∅ ∅ (coord_manifest input_bam))
                input_bam (asm_no_raise _ _ _ _ Hasm)) as Hdom.
  simpl in Hdom. unfold families_of, _build_coordinate_families.
  destruct (decide (k ∈ dom (coord_manifest input_bam))) as [Hk|Hk].
  - rewrite <- Hdom in Hk. apply elem_of_dom in Hk as [s Hs].
    unfold owed in Hempty. rewrite Hs in Hempty. simpl in Hempty.
    by rewrite Hs, Hempty.
  - rewrite <- Hdom in Hk. by apply not_elem_of_dom in Hk.
Qed.

Lemma key_error_needs_repeated_name_witness :
  (forall r, r ∈ orphan_input ->
     (name_count (query_name r) orphan_input < 4)%nat)
  /\ raises (families_of orphan_input).1 = false
  /\ (main orphan_input).2 = false.
Proof.
  assert (forall r, r ∈ orphan_input ->
            (name_count (query_name r) orphan_input < 4)%nat) as Hfew.
  { intros r Hin. apply list_elem_of_singleton in Hin. subst r.
    vm_compute. lia. }
  split; [exact Hfew|].
  exact (key_error_needs_repeated_name orphan_input Hfew).
Defined.

Lemma manifest_is_used_up_witness :
  well_formed two_pairs_input
  /\ coord_read_name_manifest (families_of two_pairs_input).2 !! sample_key
     = if decide (sample_key ∈ dom (coord_manifest two_pairs_input))
       then Some ∅ else None.
Proof.
  split; [exact two_pairs_well_formed|].
  exact (manifest_is_used_up two_pairs_input sample_key two_pairs_well_formed).
Defined.

(** ** The keys a well-formed input releases *)

Lemma well_formed_read_yielded input r :
  well_formed input -> r ∈ input ->
  exists pa0 g, Yielded (coordinate_key r) pa0 g ∈ (families_of input).1.
Proof.
  intros Hwf Hr. destruct (well_formed_run input Hwf) as [_ Hperm].
  rewrite <- Hperm in Hr.
  apply list_elem_of_bind in Hr as (pa & Hrpa & Hpa).
  apply elem_of_yielded_pairs in Hpa as (k & pa0 & g & Hin & Hg).
  pose proof (families_good_outcomes input (coord_manifest input)) as Hall.
  rewrite Forall_forall in Hall. destruct (Hall _ Hin) as (_ & Hmates & _).
  pose proof (Hmates pa Hg) as Hm.
  destruct (mates_in_elem_of _ _ _ Hm) as [Hl Hrr].
  destruct Hm as (Hn & Hk & _).
  assert (coordinate_key r = k) as ->; [|eauto].
  apply elem_of_cons in Hrpa as [->|Hrpa].
  - rewrite Hk. by apply (Hwf (right_alignment pa) Hrr).
  - apply list_elem_of_singleton in Hrpa as ->. done.
Qed.

(** X16: on a well-formed input a family is yielded exactly once for each
    coordinate key that occurs in the input, and for no other key. *)
Theorem every_key_yielded_once (input_bam : list AlignedSegment)
    (k : CoordinateKey) :
  well_formed input_bam ->
  NoDup (omap yielded_key (families_of input_bam).1)
  /\ (k ∈ omap yielded_key (families_of input_bam).1
      <-> exists r, r ∈ input_bam /\ coordinate_key r = k).
Proof.
  intros Hwf. split; [apply run_yield_keys_NoDup|]. split.
  - intros (o & Hin & Hk)%list_elem_of_omap.
    destruct o as [| |k' pa0 g|]; try discriminate. injection Hk as ->.
    pose proof (families_good_outcomes input_bam (coord_manifest input_bam))
      as Hall.
    rewrite Forall_forall in Hall. destruct (Hall _ Hin) as (Hpa & Hmates & _).
    pose proof (Hmates pa0 Hpa) as Hm.
    destruct (mates_in_elem_of _ _ _ Hm) as [_ Hrr].
    destruct Hm as (_ & -> & _). eauto.
  - intros (r & Hr & <-).
    destruct (well_formed_read_yielded input_bam r Hwf Hr) as (pa0 & g & Hin).
    apply list_elem_of_omap. exists (Yielded (coordinate_key r) pa0 g).
    by split.
Qed.

Lemma every_key_yielded_once_witness :
  well_formed two_pairs_input
  /\ (sample_key ∈ omap yielded_key (families_of two_pairs_input).1
      <-> exists r, r ∈ two_pairs_input /\ coordinate_key r = sample_key).
Proof.
  split; [exact two_pairs_well_formed|].
  exact (proj2 (every_key_yielded_once two_pairs_input sample_key
                  two_pairs_well_formed)).
Defined.
